(** * A shallow embedding of DALI's coalescing pool memory resource

    Source: [dali/core/mm/pool_resource.h], the classes [pool_resource_base]
    and [deferred_dealloc_pool].
    Two smaller embeddings come after it: the axis permutations of the
    Numpy reader and [FillTensorList] of
    [dali/operators/generic/constant.cu].

    Conventions.
    - [size_t] values and addresses are binary naturals ([N]); every place
      where the 64-bit arithmetic of the source can wrap is written with
      [wrap64].  The null pointer is address [0].
    - [int] values (device ids, the outstanding-deallocation threshold, the
      queue index) are integers ([Z]); the words of [dev_mask] are integers
      below [2 ^ 32].
    - [float] is IEEE binary32, through the Standard Library's [SpecFloat].
    - Every action on a collaborator (upstream calls, free-list calls, device
      synchronisations, flushes) is appended to a trace kept in the pool
      state, so that "does not touch X" is a statement about the trace.
    - The collaborators themselves (the upstream resource, the growth of
      [blocks_], the CUDA runtime, the worker seen from a caller) are an
      [environment]: functions of the history, about which nothing is
      assumed.  Locks are not modelled in [pool_resource_base], whose
      operations are taken one at a time.
    - CUDA runtime calls are taken to succeed.
    - [deferred_dealloc_pool] is a transition system: the worker thread and
      one calling thread move in steps, interleaved by a schedule, with the
      mutex and the two condition variables between them.

    The file has the definitions first (the embedding, the specification's
    formulas, the measures and invariants of the proofs, the concrete pools
    used in examples) and the properties after them. *)

From Stdlib Require Import ZArith NArith Lia Bool List.
From Stdlib Require Import SpecFloat.
From stdpp Require Import base list.
Import ListNotations.

Local Open Scope N_scope.

(** ** Machine arithmetic *)

Module Machine.

Definition size_max : N := 2 ^ 64.

Definition wrap64 (x : N) : N := x mod size_max.

(** [a - b] on [size_t]. *)
Definition sub64 (a b : N) : N := wrap64 (a + (size_max - wrap64 b)).

(** Unary minus on [size_t]. *)
Definition neg64 (a : N) : N := sub64 0 a.

(** *** binary32 *)

Definition prec32 : Z := 24.
Definition emax32 : Z := 128.

(** Conversion [size_t -> float] (round to nearest, ties to even). *)
Definition float_of_size (n : N) : spec_float :=
  binary_normalize prec32 emax32 (Z.of_N n) 0 false.

Definition fmul (x y : spec_float) : spec_float := SFmul prec32 emax32 x y.

(** Conversion [float -> size_t]: truncation toward zero.  The conversion
    is undefined in C++ when the truncated value is not representable
    (negative, too large, infinite or NaN); that is [None] here. *)
Definition size_of_float (f : spec_float) : option N :=
  match f with
  | S754_zero _ => Some 0
  | S754_finite s m e =>
      let v := if (0 <=? e)%Z then (Z.pos m * 2 ^ e)%Z
               else (Z.pos m / 2 ^ (- e))%Z in
      if s then (if (v =? 0)%Z then Some 0 else None)
      else if (v <? Z.of_N size_max)%Z then Some (Z.to_N v) else None
  | S754_infinity _ => None
  | S754_nan => None
  end.

End Machine.

(** ** Helpers of [dali/core/util.h] *)

Module Util.
Import Machine.

(** Modelled from the spec: [ilog2] is declared in [dali/core/util.h],
    which is not part of the sources at hand.  The spec uses it as the
    integer binary logarithm ("one-thousandth of the block" is
    [ilog2 - 10]); it is the position of the most significant set bit,
    and [0] for the argument [0]. *)
Definition ilog2 (x : N) : Z := Z.of_N (N.log2 x).

(** Modelled from the spec: [align_up] is declared in [dali/core/util.h],
    which is not part of the sources at hand.  The spec aligns a size up
    to a power-of-two alignment; on [size_t] this is the usual
    [(x + (a - 1)) & -a]. *)
Definition align_up (x a : N) : N :=
  N.land (wrap64 (x + sub64 a 1)) (neg64 a).

End Util.

(** ** Data model *)

Inductive sync_scope := scope_none | scope_device | scope_system.

Record pool_options := {
  max_block_size : N;
  min_block_size : N;
  growth_factor : spec_float;
  try_smaller_on_failure : bool;
  return_to_upstream_on_failure : bool;
  sync : sync_scope;
  enable_deferred_deallocation : bool;
  max_outstanding_deallocations : Z;
  upstream_alignment : N
}.

(** [default_host_pool_opts] and [default_pool_opts<memory_kind::device>];
    [2.0f] is [float_of_size 2]. *)
Definition default_host_pool_opts : pool_options :=
  {| max_block_size := N.shiftl 1 28; min_block_size := N.shiftl 1 12;
     growth_factor := Machine.float_of_size 2;
     try_smaller_on_failure := true; return_to_upstream_on_failure := true;
     sync := scope_none; enable_deferred_deallocation := false;
     max_outstanding_deallocations := 16; upstream_alignment := 256 |}.

Definition default_device_pool_opts : pool_options :=
  {| max_block_size := N.shiftl 1 32; min_block_size := N.shiftl 1 20;
     growth_factor := Machine.float_of_size 2;
     try_smaller_on_failure := true; return_to_upstream_on_failure := true;
     sync := scope_device; enable_deferred_deallocation := true;
     max_outstanding_deallocations := 16; upstream_alignment := 256 |}.

Record dealloc_params := {
  sync_device : Z;
  ptr : N;
  bytes : N;
  alignment : N
}.

Record UpstreamBlock := {
  blk_ptr : N;
  blk_bytes : N;
  blk_alignment : N
}.

(** What the pool does to the outside world, in program order. *)
Inductive event :=
| EvUpstreamAllocate (bytes alignment : N) (result : option N)
| EvUpstreamDeallocate (ptr bytes alignment : N)
| EvFreeListGet (bytes alignment : N)
| EvFreeListPut (ptr bytes : N)
| EvFreeListRemove (ptr bytes : N)
| EvFreeListClear
| EvFlushDeferred
| EvDeviceSynchronize (dev : Z).

Inductive exception := bad_alloc | push_back_failure.

Inductive outcome (A : Type) :=
| Returns (a : A)
| Throws (e : exception)
| Undefined
| OutOfFuel.
Arguments Returns {A} a.
Arguments Throws {A} e.
Arguments Undefined {A}.
Arguments OutOfFuel {A}.

(** The [FreeList] template parameter: the operations the pool calls.
    [fl_get] returns the null address on a miss. *)
Class FreeList (FL : Type) := {
  fl_get : N -> N -> FL -> N * FL;
  fl_put : N -> N -> FL -> FL;
  fl_remove_if_in_list : N -> N -> FL -> bool * FL;
  fl_clear : FL -> FL
}.

(** The collaborators that are outside the pool.
    - [upstream_allocate history bytes alignment]: the answer of
      [upstream_->allocate]; [None] is a thrown [std::bad_alloc].  It may
      depend on everything that happened so far.
    - [push_back_ok blocks]: whether [blocks_.push_back] succeeds.
    - [current_device], [device_count]: [cudaGetDevice], [cudaGetDeviceCount].
    - [flushed history]: the batch the deferred-deallocation worker returns
      to the pool while the caller is inside the virtual [flush_deferred]
      (empty for [pool_resource_base], whose [flush_deferred] is a no-op). *)
Record environment := {
  upstream_allocate : list event -> N -> N -> option N;
  push_back_ok : list UpstreamBlock -> bool;
  current_device : Z;
  device_count : nat;
  flushed : list event -> list dealloc_params
}.

(** ** [pool_resource_base] *)

Record pool (FL : Type) := {
  free_list_ : FL;
  blocks_ : list UpstreamBlock;
  next_block_size_ : N;
  options_ : pool_options;
  trace : list event
}.
Arguments free_list_ {FL} _.
Arguments blocks_ {FL} _.
Arguments next_block_size_ {FL} _.
Arguments options_ {FL} _.
Arguments trace {FL} _.

Module pool_resource_base.
Import Machine Util.

Section Definitions.
Context {FL : Type} {free_list_ops : FreeList FL}.
Variable env : environment.

Definition emit (e : event) (p : pool FL) : pool FL :=
  {| free_list_ := free_list_ p; blocks_ := blocks_ p;
     next_block_size_ := next_block_size_ p; options_ := options_ p;
     trace := trace p ++ [e] |}.

Definition set_free_list (fl : FL) (p : pool FL) : pool FL :=
  {| free_list_ := fl; blocks_ := blocks_ p;
     next_block_size_ := next_block_size_ p; options_ := options_ p;
     trace := trace p |}.

Definition set_blocks (bs : list UpstreamBlock) (p : pool FL) : pool FL :=
  {| free_list_ := free_list_ p; blocks_ := bs;
     next_block_size_ := next_block_size_ p; options_ := options_ p;
     trace := trace p |}.

Definition set_next_block_size (n : N) (p : pool FL) : pool FL :=
  {| free_list_ := free_list_ p; blocks_ := blocks_ p;
     next_block_size_ := n; options_ := options_ p;
     trace := trace p |}.

(** The constructor: the cursor starts at [min_block_size]. *)
Definition create (fl : FL) (opt : pool_options) : pool FL :=
  {| free_list_ := fl; blocks_ := []; next_block_size_ := min_block_size opt;
     options_ := opt; trace := [] |}.

(** [free_list_.get], [free_list_.put] under [lock_]. *)
Definition free_list_get (bytes alignment : N) (p : pool FL) : N * pool FL :=
  let '(q, fl) := fl_get bytes alignment (free_list_ p) in
  (q, emit (EvFreeListGet bytes alignment) (set_free_list fl p)).

Definition free_list_put (ptr bytes : N) (p : pool FL) : pool FL :=
  emit (EvFreeListPut ptr bytes)
       (set_free_list (fl_put ptr bytes (free_list_ p)) p).

Definition upstream_deallocate (ptr bytes alignment : N) (p : pool FL) : pool FL :=
  emit (EvUpstreamDeallocate ptr bytes alignment) p.

(** [detail::synchronize_all_devices] *)
Definition synchronize_all_devices (p : pool FL) : pool FL :=
  fold_left (fun q i => emit (EvDeviceSynchronize (Z.of_nat i)) q)
            (seq 0 (device_count env)) p.

(** [detail::synchronize(scope)], as called by [synchronize()] *)
Definition synchronize (p : pool FL) : pool FL :=
  match sync (options_ p) with
  | scope_device => emit (EvDeviceSynchronize (current_device env)) p
  | scope_system => synchronize_all_devices p
  | scope_none => p
  end.

Definition kMaxDevices : Z := 256.

(** One turn of the loop of [synchronize(span)]; the loop state is
    [prev], [dev_mask] and the pool (for the trace). *)
Definition synchronize_step (st : Z * list Z * pool FL) (par : dealloc_params)
  : Z * list Z * pool FL :=
  let '(prev, dev_mask, p) := st in
  let dev := sync_device par in
  let dev := if (dev <? 0)%Z then current_device env else dev in
  if (dev <? kMaxDevices)%Z then
    let bin := Z.to_nat (Z.shiftr dev 5) in
    let mask := (Z.shiftl 1 (Z.land dev 31) mod 2 ^ 32)%Z in
    let word := default 0%Z (dev_mask !! bin) in
    if negb (Z.land word mask =? 0)%Z then st
    else (dev, <[bin := Z.lor word mask]> dev_mask,
          emit (EvDeviceSynchronize dev) p)
  else if (dev =? prev)%Z then st
  else (dev, dev_mask, emit (EvDeviceSynchronize dev) p).

(** [synchronize(span<const dealloc_params>)] *)
Definition synchronize_span (params : list dealloc_params) (p : pool FL) : pool FL :=
  match sync (options_ p) with
  | scope_device =>
      snd (fold_left synchronize_step params
                     ((-1)%Z, replicate (Z.to_nat (Z.shiftr kMaxDevices 5)) 0%Z, p))
  | scope_system => synchronize_all_devices p
  | scope_none => p
  end.

Definition bulk_deallocate (params : list dealloc_params) (p : pool FL) : pool FL :=
  match params with
  | [] => p
  | _ :: _ =>
      fold_left (fun q par => free_list_put (ptr par) (bytes par) q)
                params (synchronize_span params p)
  end.

(** The virtual [flush_deferred], seen from the calling thread. *)
Definition flush_deferred (p : pool FL) : pool FL :=
  let p1 := emit EvFlushDeferred p in
  bulk_deallocate (flushed env (trace p1)) p1.

Definition free_all (p : pool FL) : pool FL :=
  let p1 := fold_left (fun q blk =>
                         upstream_deallocate (blk_ptr blk) (blk_bytes blk)
                                             (blk_alignment blk) q)
                      (blocks_ p) p in
  emit EvFreeListClear (set_free_list (fl_clear (free_list_ p1)) (set_blocks [] p1)).

Definition try_allocate_from_free (bytes alignment : N) (p : pool FL) : N * pool FL :=
  if bytes =? 0 then (0, p) else free_list_get bytes alignment p.

Definition deallocate_no_sync (ptr bytes alignment : N) (p : pool FL) : pool FL :=
  free_list_put ptr bytes p.

Definition do_deallocate (ptr bytes alignment : N) (p : pool FL) : pool FL :=
  deallocate_no_sync ptr bytes alignment (synchronize p).

(** [next_block_size]: the size of the next upstream block. *)
Definition next_block_size (upcoming_allocation_size : N) (p : pool FL)
  : outcome N * pool FL :=
  match size_of_float (fmul (float_of_size (next_block_size_ p))
                            (growth_factor (options_ p))) with
  | None => (Undefined, p)
  | Some grown =>
      let actual_block_size := N.max upcoming_allocation_size grown in
      let alignment :=
        wrap64 (N.shiftl 1 (Z.to_N (Z.max (ilog2 actual_block_size - 10) 12))) in
      let actual_block_size := align_up actual_block_size alignment in
      (Returns actual_block_size,
       set_next_block_size
         (N.min actual_block_size (max_block_size (options_ p))) p)
  end.

(** The scan of the reclaim pass: [removed[i]] and [blocks_freed]. *)
Fixpoint scan_blocks (blks : list UpstreamBlock) (p : pool FL)
  : list bool * Z * pool FL :=
  match blks with
  | [] => ([], 0%Z, p)
  | blk :: rest =>
      let '(r, fl) :=
        fl_remove_if_in_list (blk_ptr blk) (blk_bytes blk) (free_list_ p) in
      let p1 := emit (EvFreeListRemove (blk_ptr blk) (blk_bytes blk))
                     (set_free_list fl p) in
      let '(rs, n, p2) := scan_blocks rest p1 in
      (r :: rs, ((if r then 1 else 0) + n)%Z, p2)
  end.

(** The release loop of the reclaim pass, from index [i - 1] down to [0]. *)
Fixpoint release_removed (i : nat) (removed : list bool) (p : pool FL) : pool FL :=
  match i with
  | O => p
  | S j =>
      let p1 :=
        match removed !! j, blocks_ p !! j with
        | Some true, Some blk =>
            set_blocks (delete j (blocks_ p))
                       (upstream_deallocate (blk_ptr blk) (blk_bytes blk)
                                            (blk_alignment blk) p)
        | _, _ => p
        end in
      release_removed j removed p1
  end.

(** How one turn of the [for (;;)] loop of [get_upstream_block] ends. *)
Inductive iteration :=
| Allocated (new_block : N)
| Rethrow
| Retry (blk_size : N) (tried_return_to_upstream : bool).

(** The two statements that close the [catch] block. *)
Definition shrink (min_bytes blk_size : N) (tried : bool) (p : pool FL)
  : iteration * pool FL :=
  let blk_size := N.max min_bytes (N.shiftr blk_size 1) in
  (Retry blk_size tried, set_next_block_size blk_size p).

Definition loop_body (min_bytes alignment blk_size : N) (tried : bool) (p : pool FL)
  : iteration * pool FL :=
  let r := upstream_allocate env (trace p) blk_size alignment in
  let p1 := emit (EvUpstreamAllocate blk_size alignment r) p in
  match r with
  | Some new_block => (Allocated new_block, p1)
  | None =>
      let p2 := flush_deferred p1 in
      if negb (try_smaller_on_failure (options_ p2)) then (Rethrow, p2)
      else if blk_size =? min_bytes then
        if tried || negb (return_to_upstream_on_failure (options_ p2))
        then (Rethrow, p2)
        else match blocks_ p2 with
             | [] => (Rethrow, p2)
             | _ :: _ =>
                 let '(removed, blocks_freed, p3) := scan_blocks (blocks_ p2) p2 in
                 if (blocks_freed =? 0)%Z then (Rethrow, p3)
                 else shrink min_bytes blk_size true
                             (release_removed (length (blocks_ p3)) removed p3)
             end
      else shrink min_bytes blk_size tried p2
  end.

Fixpoint upstream_loop (fuel : nat) (min_bytes alignment blk_size : N)
         (tried : bool) (p : pool FL) : outcome (N * N) * pool FL :=
  match fuel with
  | O => (OutOfFuel, p)
  | S fuel' =>
      match loop_body min_bytes alignment blk_size tried p with
      | (Allocated new_block, p1) => (Returns (new_block, blk_size), p1)
      | (Rethrow, p1) => (Throws bad_alloc, p1)
      | (Retry blk_size' tried', p1) =>
          upstream_loop fuel' min_bytes alignment blk_size' tried' p1
      end
  end.



(** The loop halves [blk_size] down to [min_bytes] and then makes at most
    two more turns. *)
Definition loop_fuel (blk_size : N) : nat := N.to_nat (N.log2 blk_size) + 4.

(** [get_upstream_block]; the result is [(new_block, blk_size)]. *)
Definition get_upstream_block (min_bytes alignment : N) (p : pool FL)
  : outcome (N * N) * pool FL :=
  match next_block_size min_bytes p with
  | (Returns blk_size, p1) =>
      match upstream_loop (loop_fuel blk_size) min_bytes alignment blk_size
                          false p1 with
      | (Returns (new_block, blk_size), p2) =>
          if push_back_ok env (blocks_ p2)
          then (Returns (new_block, blk_size),
                set_blocks (blocks_ p2 ++
                            [{| blk_ptr := new_block; blk_bytes := blk_size;
                                blk_alignment := alignment |}]) p2)
          else (Throws push_back_failure,
                upstream_deallocate new_block blk_size alignment p2)
      | (Throws e, p2) => (Throws e, p2)
      | (Undefined, p2) => (Undefined, p2)
      | (OutOfFuel, p2) => (OutOfFuel, p2)
      end
  | (Throws e, p1) => (Throws e, p1)
  | (Undefined, p1) => (Undefined, p1)
  | (OutOfFuel, p1) => (OutOfFuel, p1)
  end.

Definition do_allocate (bytes alignment : N) (p : pool FL) : outcome N * pool FL :=
  if bytes =? 0 then (Returns 0, p)
  else
    let '(q, p1) := free_list_get bytes alignment p in
    if negb (q =? 0) then (Returns q, p1)
    else
      let alignment := N.max alignment (upstream_alignment (options_ p1)) in
      match get_upstream_block bytes alignment p1 with
      | (Returns (new_block, blk_size), p2) =>
          if blk_size =? bytes then (Returns new_block, p2)
          else (Returns new_block,
                free_list_put (new_block + bytes) (sub64 blk_size bytes) p2)
      | (Throws e, p2) => (Throws e, p2)
      | (Undefined, p2) => (Undefined, p2)
      | (OutOfFuel, p2) => (OutOfFuel, p2)
      end.

End Definitions.
End pool_resource_base.

(** ** A reference free list *)

Module coalescing_free_list.

(** Modelled from the spec: the free list ([dali/core/mm/detail/free_list.h])
    is not part of the sources at hand.  This instance follows the contract
    of the spec's system overview: regions [(address, size)] kept in address
    order; [put] coalesces with address-adjacent regions; [get] is first-fit
    and honours the alignment; [remove_if_in_list] removes an exactly
    matching region; [clear] empties the list. *)
Fixpoint put (ptr bytes : N) (l : list (N * N)) : list (N * N) :=
  match l with
  | [] => [(ptr, bytes)]
  | (a, n) :: rest =>
      if ptr + bytes <? a then (ptr, bytes) :: l
      else if ptr + bytes =? a then (ptr, bytes + n) :: rest
      else if a + n =? ptr then
        match rest with
        | (b, m) :: rest' =>
            if ptr + bytes =? b then (a, n + bytes + m) :: rest'
            else (a, n + bytes) :: rest
        | [] => [(a, n + bytes)]
        end
      else (a, n) :: put ptr bytes rest
  end.

(** Modelled from the spec: the first address at or after [a] that honours
    the alignment ([free_list.h] is not part of the sources at hand). *)
Definition aligned_start (a alignment : N) : N :=
  if alignment =? 0 then a else ((a + alignment - 1) / alignment) * alignment.

(** Modelled from the spec: [get(bytes, alignment)] of the free list
    ([free_list.h] is not part of the sources at hand): first fit, honouring
    the alignment, the null address when no region fits. *)
Fixpoint get (bytes alignment : N) (l : list (N * N)) : N * list (N * N) :=
  match l with
  | [] => (0, [])
  | (a, n) :: rest =>
      let s := aligned_start a alignment in
      if s + bytes <=? a + n then
        (s, (if a <? s then [(a, s - a)] else []) ++
            (if s + bytes <? a + n then [(s + bytes, a + n - (s + bytes))] else []) ++
            rest)
      else let '(q, rest') := get bytes alignment rest in (q, (a, n) :: rest')
  end.

(** Modelled from the spec: [remove_if_in_list(ptr, bytes)] of the free list
    ([free_list.h] is not part of the sources at hand): exact-match removal. *)
Fixpoint remove_if_in_list (ptr bytes : N) (l : list (N * N)) : bool * list (N * N) :=
  match l with
  | [] => (false, [])
  | (a, n) :: rest =>
      if (a =? ptr) && (n =? bytes) then (true, rest)
      else let '(r, rest') := remove_if_in_list ptr bytes rest in (r, (a, n) :: rest')
  end.

(** Modelled from the spec: the free list as the pool's [FreeList]
    parameter; [clear] empties it. *)
#[export] Instance ops : FreeList (list (N * N)) := {
  fl_get := get;
  fl_put := put;
  fl_remove_if_in_list := remove_if_in_list;
  fl_clear := fun _ => []
}.

End coalescing_free_list.

(** ** [deferred_dealloc_pool] *)

Module deferred_dealloc_pool.
Import Machine.

(** Where the worker thread is inside [run]. *)
Inductive worker_pc :=
| WNotStarted
| WStart          (* thread created, constructing [ulock]: locks [mtx_] *)
| WLoop           (* [while (!is_stopped())], holds [mtx_] *)
| WWaitPred       (* [cv_.wait]: evaluates the predicate, holds [mtx_] *)
| WBlocked        (* [cv_.wait]: blocked, [mtx_] released *)
| WNotified       (* [cv_.wait]: notified, locks [mtx_] again *)
| WAfterWait      (* [if (is_stopped()) break;] then the swap, holds [mtx_] *)
| WBulk (q : Z)   (* [bulk_deallocate(deallocs_[q])], [mtx_] released *)
| WClear (q : Z)  (* [to_free.clear()] *)
| WNotify         (* [ready_.notify_one()] *)
| WRelock         (* [ulock.lock()] *)
| WExited.

Inductive flush_pc :=
| FlushCheck      (* the test without the lock *)
| FlushLock       (* locks [mtx_], tests again *)
| FlushWait       (* inside [ready_.wait(ulock)], [mtx_] released *)
| FlushWoken.     (* notified: locks [mtx_] again, then leaves *)

Inductive continuation := KBaseAllocate | KIdle.

(** Where the calling thread is. *)
Inductive client_pc :=
| CIdle
| CAllocEntry                              (* [do_allocate], first line *)
| CFlush (f : flush_pc) (k : continuation) (* inside [flush_deferred] *)
| CBaseAllocate                            (* inside [base::do_allocate] *)
| CReturned.

Record state := {
  deallocs_ : list (list dealloc_params);
  queue_idx_ : Z;
  started_ : bool;
  stopped_ : bool;
  mtx_locked : bool;
  worker_ : worker_pc;
  client : client_pc;
  returned_to_pool : list (list dealloc_params)
}.

Definition initial : state :=
  {| deallocs_ := [[]; []]; queue_idx_ := 0; started_ := false;
     stopped_ := false; mtx_locked := false; worker_ := WNotStarted;
     client := CIdle; returned_to_pool := [] |}.

Definition queue (i : Z) (s : state) : list dealloc_params :=
  default [] (deallocs_ s !! Z.to_nat i).

Definition is_empty {A} (l : list A) : bool :=
  match l with [] => true | _ :: _ => false end.

Definition outstanding_dealloc_count (s : state) : Z :=
  (Z.of_nat (length (queue 0 s)) + Z.of_nat (length (queue 1 s)))%Z.

Definition no_pending_deallocs (s : state) : bool :=
  is_empty (queue 0 s) && is_empty (queue 1 s).

Definition is_stopped (s : state) : bool := stopped_ s.

(** The predicate handed to [cv_.wait] in [run], as the source has it. *)
Definition wait_predicate (s : state) : bool :=
  negb (stopped_ s) || is_empty (queue (queue_idx_ s) s).

Definition set_deallocs (d : list (list dealloc_params)) (s : state) : state :=
  {| deallocs_ := d; queue_idx_ := queue_idx_ s; started_ := started_ s;
     stopped_ := stopped_ s; mtx_locked := mtx_locked s; worker_ := worker_ s;
     client := client s; returned_to_pool := returned_to_pool s |}.

Definition set_queue_idx (i : Z) (s : state) : state :=
  {| deallocs_ := deallocs_ s; queue_idx_ := i; started_ := started_ s;
     stopped_ := stopped_ s; mtx_locked := mtx_locked s; worker_ := worker_ s;
     client := client s; returned_to_pool := returned_to_pool s |}.

Definition set_started (b : bool) (s : state) : state :=
  {| deallocs_ := deallocs_ s; queue_idx_ := queue_idx_ s; started_ := b;
     stopped_ := stopped_ s; mtx_locked := mtx_locked s; worker_ := worker_ s;
     client := client s; returned_to_pool := returned_to_pool s |}.

Definition set_stopped (b : bool) (s : state) : state :=
  {| deallocs_ := deallocs_ s; queue_idx_ := queue_idx_ s; started_ := started_ s;
     stopped_ := b; mtx_locked := mtx_locked s; worker_ := worker_ s;
     client := client s; returned_to_pool := returned_to_pool s |}.

Definition set_mtx (b : bool) (s : state) : state :=
  {| deallocs_ := deallocs_ s; queue_idx_ := queue_idx_ s; started_ := started_ s;
     stopped_ := stopped_ s; mtx_locked := b; worker_ := worker_ s;
     client := client s; returned_to_pool := returned_to_pool s |}.

Definition set_worker (w : worker_pc) (s : state) : state :=
  {| deallocs_ := deallocs_ s; queue_idx_ := queue_idx_ s; started_ := started_ s;
     stopped_ := stopped_ s; mtx_locked := mtx_locked s; worker_ := w;
     client := client s; returned_to_pool := returned_to_pool s |}.

Definition set_client (c : client_pc) (s : state) : state :=
  {| deallocs_ := deallocs_ s; queue_idx_ := queue_idx_ s; started_ := started_ s;
     stopped_ := stopped_ s; mtx_locked := mtx_locked s; worker_ := worker_ s;
     client := c; returned_to_pool := returned_to_pool s |}.

Definition log_batch (b : list dealloc_params) (s : state) : state :=
  {| deallocs_ := deallocs_ s; queue_idx_ := queue_idx_ s; started_ := started_ s;
     stopped_ := stopped_ s; mtx_locked := mtx_locked s; worker_ := worker_ s;
     client := client s; returned_to_pool := returned_to_pool s ++ [b] |}.

(** [cv_.notify_one()] / [cv_.notify_all()]: the worker is the only waiter. *)
Definition notify_cv (s : state) : state :=
  match worker_ s with
  | WBlocked => set_worker WNotified s
  | _ => s
  end.

(** [ready_.notify_one()] *)
Definition notify_ready (s : state) : state :=
  match client s with
  | CFlush FlushWait k => set_client (CFlush FlushWoken k) s
  | _ => s
  end.

Definition start_worker (s : state) : state :=
  set_started true (set_worker WStart s).

(** The part of [deferred_deallocate] after the early return and the
    device lookup: the critical section and the notification. *)
Definition enqueue (par : dealloc_params) (s : state) : state :=
  let i := Z.to_nat (queue_idx_ s) in
  let s1 := set_deallocs (<[i := queue (queue_idx_ s) s ++ [par]]> (deallocs_ s)) s in
  let s2 := if started_ s1 then s1 else start_worker s1 in
  notify_cv s2.

Definition deferred_deallocate (env : environment)
           (ptr bytes alignment : N) (device_id : Z) (s : state) : state :=
  if (ptr =? 0) || (bytes =? 0) then s
  else
    let device_id := if (device_id <? 0)%Z then current_device env else device_id in
    enqueue {| sync_device := device_id; ptr := ptr; bytes := bytes;
               alignment := alignment |} s.

(** The override of [do_deallocate]; the default device id is [-1]. *)
Definition do_deallocate {FL} `{FreeList FL} (env : environment)
           (ptr bytes alignment : N) (sp : state * pool FL) : state * pool FL :=
  if enable_deferred_deallocation (options_ (snd sp))
  then (deferred_deallocate env ptr bytes alignment (-1) (fst sp), snd sp)
  else (fst sp, pool_resource_base.do_deallocate env ptr bytes alignment (snd sp)).

Definition stop (s : state) : state := notify_cv (set_stopped true s).

(** One step of the worker thread; [None] when it cannot move. *)
Definition run (s : state) : option state :=
  match worker_ s with
  | WNotStarted => None
  | WStart =>
      if mtx_locked s then None else Some (set_worker WLoop (set_mtx true s))
  | WLoop =>
      if is_stopped s then Some (set_worker WExited (set_mtx false s))
      else Some (set_worker WWaitPred s)
  | WWaitPred =>
      if wait_predicate s then Some (set_worker WAfterWait s)
      else Some (set_worker WBlocked (set_mtx false s))
  | WBlocked => None
  | WNotified =>
      if mtx_locked s then None else Some (set_worker WWaitPred (set_mtx true s))
  | WAfterWait =>
      if is_stopped s then Some (set_worker WExited (set_mtx false s))
      else
        let q := queue_idx_ s in
        Some (set_worker (WBulk q) (set_mtx false (set_queue_idx (1 - q)%Z s)))
  | WBulk q => Some (set_worker (WClear q) (log_batch (queue q s) s))
  | WClear q =>
      Some (set_worker WNotify (set_deallocs (<[Z.to_nat q := []]> (deallocs_ s)) s))
  | WNotify => Some (set_worker WRelock (notify_ready s))
  | WRelock =>
      if mtx_locked s then None else Some (set_worker WLoop (set_mtx true s))
  | WExited => None
  end.

Definition resume (k : continuation) : client_pc :=
  match k with KBaseAllocate => CBaseAllocate | KIdle => CIdle end.

(** One step of the calling thread inside [flush_deferred]. *)
Definition flush_deferred (f : flush_pc) (k : continuation) (s : state)
  : option state :=
  match f with
  | FlushCheck =>
      if negb (no_pending_deallocs s) then Some (set_client (CFlush FlushLock k) s)
      else Some (set_client (resume k) s)
  | FlushLock =>
      if mtx_locked s then None
      else if negb (no_pending_deallocs s)
           then Some (set_client (CFlush FlushWait k) s)
           else Some (set_client (resume k) s)
  | FlushWait => None
  | FlushWoken =>
      if mtx_locked s then None else Some (set_client (resume k) s)
  end.

(** One step of the calling thread. *)
Definition do_allocate (opt : pool_options) (s : state) : option state :=
  match client s with
  | CIdle => None
  | CAllocEntry =>
      if enable_deferred_deallocation opt
         && (max_outstanding_deallocations opt <? outstanding_dealloc_count s)%Z
      then Some (set_client (CFlush FlushCheck KBaseAllocate) s)
      else Some (set_client CBaseAllocate s)
  | CFlush f k => flush_deferred f k s
  | CBaseAllocate => Some (set_client CReturned s)
  | CReturned => None
  end.

(** What the scheduler and the other threads can do. *)
Inductive action :=
| ActCallAllocate              (* the caller enters [allocate] *)
| ActCallFlush                 (* the caller enters [flush_deferred] *)
| ActClient                    (* the caller's next step *)
| ActUpstreamFailure           (* [base::do_allocate] reaches its [catch] *)
| ActEnqueue (par : dealloc_params)  (* some thread's [deferred_deallocate] *)
| ActStop
| ActWorker.

Definition step (opt : pool_options) (a : action) (s : state) : option state :=
  match a with
  | ActCallAllocate =>
      match client s with
      | CIdle | CReturned => Some (set_client CAllocEntry s)
      | _ => None
      end
  | ActCallFlush =>
      match client s with
      | CIdle | CReturned => Some (set_client (CFlush FlushCheck KIdle) s)
      | _ => None
      end
  | ActClient => do_allocate opt s
  | ActUpstreamFailure =>
      match client s with
      | CBaseAllocate => Some (set_client (CFlush FlushCheck KBaseAllocate) s)
      | _ => None
      end
  | ActEnqueue par => if mtx_locked s then None else Some (enqueue par s)
  | ActStop => Some (stop s)
  | ActWorker => run s
  end.

Fixpoint exec (opt : pool_options) (sched : list action) (s : state) : option state :=
  match sched with
  | [] => Some s
  | a :: rest =>
      match step opt a s with
      | Some s1 => exec opt rest s1
      | None => None
      end
  end.


End deferred_dealloc_pool.

(** ** Mock collaborators for concrete runs *)

Module Mock.

(** Bytes handed out by upstream so far, and bytes still held. *)
Definition handed_out (history : list event) : N :=
  fold_left (fun acc e =>
               match e with
               | EvUpstreamAllocate n _ (Some _) => acc + n
               | _ => acc
               end) history 0.

Definition held (history : list event) : N :=
  fold_left (fun acc e =>
               match e with
               | EvUpstreamAllocate n _ (Some _) => acc + n
               | EvUpstreamDeallocate _ n _ => acc - n
               | _ => acc
               end) history 0.

(** An upstream that hands out consecutive addresses from [0x10000] and
    refuses to have more than [cap] bytes outstanding; device 0 of 2 is
    current; no deferred deallocations arrive. *)
Definition upstream (cap : N) (record_ok : bool) : environment :=
  {| upstream_allocate := fun history n _ =>
       if held history + n <=? cap then Some (65536 + handed_out history)
       else None;
     push_back_ok := fun _ => record_ok;
     current_device := 0;
     device_count := 2;
     flushed := fun _ => [] |}.

Definition host_pool : pool (list (N * N)) :=
  pool_resource_base.create [] default_host_pool_opts.

Definition device_pool : pool (list (N * N)) :=
  pool_resource_base.create [] default_device_pool_opts.

Definition on_device (d : Z) : dealloc_params :=
  {| sync_device := d; ptr := 4096; bytes := 64; alignment := 8 |}.

End Mock.

(** ** A backpressure scenario *)

Module Scenario.
Import deferred_dealloc_pool.

(** The device defaults with a threshold of two outstanding deallocations. *)
Definition tight_options : pool_options :=
  {| max_block_size := max_block_size default_device_pool_opts;
     min_block_size := min_block_size default_device_pool_opts;
     growth_factor := growth_factor default_device_pool_opts;
     try_smaller_on_failure := true; return_to_upstream_on_failure := true;
     sync := scope_device; enable_deferred_deallocation := true;
     max_outstanding_deallocations := 2; upstream_alignment := 256 |}.

Definition region (n : N) : dealloc_params :=
  {| sync_device := 0; ptr := 4096 * n; bytes := 64; alignment := 8 |}.

(** One caller and the worker.  The caller frees one region; the worker
    takes that queue and is still busy with it while the caller frees three
    more regions and then allocates.  The allocation finds four outstanding
    deallocations, flushes, and is woken when the worker has finished the
    first queue. *)
Definition schedule : list action :=
  [ ActEnqueue (region 1);
    ActWorker; ActWorker; ActWorker; ActWorker;
    ActEnqueue (region 2); ActEnqueue (region 3); ActEnqueue (region 4);
    ActCallAllocate; ActClient; ActClient; ActClient;
    ActWorker; ActWorker; ActWorker;
    ActClient; ActClient ].

End Scenario.

(** ** The pools of the end-to-end scenarios *)

Module Runs.
Import pool_resource_base.
#[local] Existing Instance coalescing_free_list.ops.

Definition roomy : environment := Mock.upstream (2 ^ 30) true.

Definition tight : environment := Mock.upstream 8192 true.

(** A fresh host pool after [allocate(100)], then after [allocate(200)],
    then after both regions have been deallocated again. *)
Definition after_100 : pool (list (N * N)) :=
  snd (do_allocate roomy 100 4 Mock.host_pool).

Definition after_200 : pool (list (N * N)) :=
  snd (do_allocate roomy 200 4 after_100).

Definition after_frees : pool (list (N * N)) :=
  do_deallocate roomy 65636 200 4 (do_deallocate roomy 65536 100 4 after_200).

(** A host pool that owns one 8 KiB block, wholly free, over an upstream
    that lets 8 KiB be outstanding. *)
Definition one_free_block : pool (list (N * N)) :=
  do_deallocate tight 65536 8192 4
                (snd (do_allocate tight 8192 4 Mock.host_pool)).

(** The upstream requests in a trace. *)
Definition upstream_calls (tr : list event) : list event :=
  List.filter (fun e => match e with
                        | EvUpstreamAllocate _ _ _ => true
                        | EvUpstreamDeallocate _ _ _ => true
                        | _ => false
                        end) tr.

End Runs.

(** ** Reading the trace *)

Definition block_eqb (a b : UpstreamBlock) : bool :=
  (blk_ptr a =? blk_ptr b) && (blk_bytes a =? blk_bytes b)
  && (blk_alignment a =? blk_alignment b).

(** How many times [b] was obtained from upstream minus how many times it
    was given back. *)
Definition upstream_balance (tr : list event) (b : UpstreamBlock) : Z :=
  fold_left
    (fun acc e =>
       match e with
       | EvUpstreamAllocate n a (Some q) =>
           if block_eqb {| blk_ptr := q; blk_bytes := n; blk_alignment := a |} b
           then (acc + 1)%Z else acc
       | EvUpstreamDeallocate q n a =>
           if block_eqb {| blk_ptr := q; blk_bytes := n; blk_alignment := a |} b
           then (acc - 1)%Z else acc
       | _ => acc
       end) tr 0%Z.

(** How often the reclaim scan asked the free list about a block. *)
Definition scans (tr : list event) : nat :=
  length (List.filter (fun e => match e with
                                | EvFreeListRemove _ _ => true
                                | _ => false
                                end) tr).

(** The devices synchronised, in order. *)
Definition device_syncs (tr : list event) : list Z :=
  flat_map (fun e => match e with EvDeviceSynchronize d => [d] | _ => [] end) tr.

(** The device a batch entry is synchronised on: its own, or the current
    one for the default device. *)
Definition resolve (current dev : Z) : Z :=
  if (dev <? 0)%Z then current else dev.

(** ** The specification's formulas *)

Module Spec.

(** The least multiple of [a] that is at least [x] ("align up"), on
    unbounded naturals. *)
Definition align_to (x a : N) : N := a * ((x + a - 1) / a).

(** "a power-of-two alignment [A = 1 << max(ilog2(actual) - 10, 12)]" *)
Definition block_alignment (actual : N) : N :=
  2 ^ N.max (N.log2 actual - 10) 12.

(** The growth-cursor mechanics, steps 1 to 3: from the request, the product
    [next_block_size * growth_factor] and [max_block_size] to the pair of
    the returned size and the stored cursor. *)
Definition next_block_size (upcoming grown max_block_size : N) : N * N :=
  let actual := N.max upcoming grown in
  let actual := align_to actual (block_alignment actual) in
  (actual, N.min actual max_block_size).

(** First occurrences, in order: the devices a batch refers to. *)
Fixpoint distinct (seen devs : list Z) : list Z :=
  match devs with
  | [] => []
  | d :: rest =>
      if existsb (Z.eqb d) seen then distinct seen rest
      else d :: distinct (d :: seen) rest
  end.

(** The synchronisation policy for scope [device] as the policy section
    words it: device ids inside the bit set's range are synchronised unless
    seen before, the others unless equal to the device synchronised last. *)
Fixpoint synchronized (limit : Z) (seen : list Z) (prev : Z) (devs : list Z) : list Z :=
  match devs with
  | [] => []
  | d :: rest =>
      if (d <? limit)%Z then
        if existsb (Z.eqb d) seen then synchronized limit seen prev rest
        else d :: synchronized limit (d :: seen) d rest
      else if (d =? prev)%Z then synchronized limit seen prev rest
      else d :: synchronized limit seen d rest
  end.

(** The worker's wait predicate as the worker loop is worded: "until either
    [stopped] is set or the current queue is non-empty". *)
Definition wake_when_stopped_or_work (s : deferred_dealloc_pool.state) : bool :=
  deferred_dealloc_pool.stopped_ s
  || negb (deferred_dealloc_pool.is_empty
             (deferred_dealloc_pool.queue (deferred_dealloc_pool.queue_idx_ s) s)).

End Spec.

(** ** Measures and invariants used in the proofs *)

Module Invariants.



(** The number of blocks the scan of the reclaim pass found wholly free. *)
Definition freed (removed : list bool) : nat :=
  length (List.filter (fun r : bool => r) removed).

(** Whether device [d] is marked in [dev_mask]. *)
Definition marked (dev_mask : list Z) (d : Z) : bool :=
  Z.testbit (default 0%Z (dev_mask !! Z.to_nat (Z.shiftr d 5))) (Z.land d 31).

(** The bit set holds exactly the devices of [seen] that are below 256. *)
Definition represents (dev_mask : list Z) (seen : list Z) : Prop :=
  length dev_mask = 8%nat
  /\ forall d, (0 <= d < 256)%Z -> marked dev_mask d = existsb (Z.eqb d) seen.

End Invariants.

(** ** Further measures and invariants *)

Module Accounting.

Definition is_upstream (e : event) : bool :=
  match e with
  | EvUpstreamAllocate _ _ _ => true
  | EvUpstreamDeallocate _ _ _ => true
  | _ => false
  end.

(** The trace of [q] is the trace of [p] followed by events that all
    satisfy [P]. *)
Definition grows_by {FL : Type} (P : event -> Prop) (p q : pool FL) : Prop :=
  exists tl, trace q = trace p ++ tl /\ Forall P tl.

(** An event that is no call to upstream. *)
Definition local (e : event) : Prop := is_upstream e = false.

(** How many times [b] stands in the owned-blocks list. *)
Definition owned (blocks : list UpstreamBlock) (b : UpstreamBlock) : Z :=
  Z.of_nat (length (List.filter (fun x => block_eqb x b) blocks)).

(** The owned-blocks list is the ground truth: a block is listed as often
    as it is held from upstream. *)
Definition accounts {FL : Type} (p : pool FL) : Prop :=
  forall b, upstream_balance (trace p) b = owned (blocks_ p) b.

(** The blocks the reclaim pass keeps and the ones it gives back, by the
    marks of the scan. *)
Definition kept (blocks : list UpstreamBlock) (removed : list bool)
  : list UpstreamBlock :=
  map fst (List.filter (fun x : UpstreamBlock * bool => negb (snd x))
                       (zip blocks removed)).

Definition released (blocks : list UpstreamBlock) (removed : list bool)
  : list UpstreamBlock :=
  map fst (List.filter (fun x : UpstreamBlock * bool => snd x)
                       (zip blocks removed)).

Definition deallocation (b : UpstreamBlock) : event :=
  EvUpstreamDeallocate (blk_ptr b) (blk_bytes b) (blk_alignment b).

(** A request to upstream for a size in [[lo, hi]] with alignment [a], or
    no request at all. *)
Definition request_within (lo hi a : N) (e : event) : Prop :=
  match e with
  | EvUpstreamAllocate n a' _ => lo <= n <= hi /\ a' = a
  | _ => True
  end.

End Accounting.

(** ** Pools with other options *)

Module Samples.

(** The host defaults, but a refused request is not retried with a smaller
    size. *)
Definition rigid_options : pool_options :=
  {| max_block_size := max_block_size default_host_pool_opts;
     min_block_size := min_block_size default_host_pool_opts;
     growth_factor := growth_factor default_host_pool_opts;
     try_smaller_on_failure := false; return_to_upstream_on_failure := true;
     sync := scope_none; enable_deferred_deallocation := false;
     max_outstanding_deallocations := 16; upstream_alignment := 256 |}.

Definition rigid_pool : pool (list (N * N)) :=
  pool_resource_base.create [] rigid_options.

(** The device defaults with scope [system]. *)
Definition system_options : pool_options :=
  {| max_block_size := max_block_size default_device_pool_opts;
     min_block_size := min_block_size default_device_pool_opts;
     growth_factor := growth_factor default_device_pool_opts;
     try_smaller_on_failure := true; return_to_upstream_on_failure := true;
     sync := scope_system; enable_deferred_deallocation := true;
     max_outstanding_deallocations := 16; upstream_alignment := 256 |}.

Definition system_pool : pool (list (N * N)) :=
  pool_resource_base.create [] system_options.

(** An upstream that lets 4 KiB be outstanding: the first request of a
    fresh host pool, 8 KiB, is refused. *)
Definition scarce : environment := Mock.upstream 4096 true.

(** A host pool that owns one block of 8 KiB. *)
Definition one_block : pool (list (N * N)) :=
  snd (pool_resource_base.get_upstream_block
         (free_list_ops := coalescing_free_list.ops)
         (Mock.upstream (2 ^ 30) true) 100 256 Mock.host_pool).

End Samples.

(** ** What becomes of the deferred deallocations *)

Module Handover.
Import deferred_dealloc_pool.
Local Open Scope Z_scope.

(** The records the calls of [deferred_deallocate] in a schedule have
    pushed, in the order of the calls. *)
Definition enqueued (sched : list action) : list dealloc_params :=
  flat_map (fun a => match a with ActEnqueue par => [par] | _ => [] end) sched.

(** The records not yet handed to [bulk_deallocate], oldest first: the
    queue the worker has taken, until it has passed it on, and then the
    queue that is being filled. *)
Definition pending (s : state) : list dealloc_params :=
  match worker_ s with
  | WBulk q => queue q s ++ queue (1 - q) s
  | WClear q => queue (1 - q) s
  | _ => queue (queue_idx_ s) s
  end.

(** Two queues, a valid index, a worker exactly when [started_] is set; the
    queue that is not being filled is empty unless the worker has just
    taken it. *)
Definition well_formed (s : state) : Prop :=
  length (deallocs_ s) = 2%nat
  /\ (queue_idx_ s = 0 \/ queue_idx_ s = 1)
  /\ (started_ s = false <-> worker_ s = WNotStarted)
  /\ match worker_ s with
     | WBulk q | WClear q => q = 1 - queue_idx_ s
     | _ => queue (1 - queue_idx_ s) s = []
     end.

(** The worker inside [cv_.wait] of a stopped pool whose current queue
    holds work. *)
Definition waits_stopped (s : state) : Prop :=
  stopped_ s = true /\ started_ s = true
  /\ (worker_ s = WWaitPred \/ worker_ s = WBlocked \/ worker_ s = WNotified)
  /\ queue (queue_idx_ s) s <> [].

(** The destructor, first half: [if (worker_.joinable()) stop();]. *)
Definition destructor_stop (s : state) : state :=
  if started_ s then stop s else s.

(** The destructor, second half: [worker_.join()] returns once the worker
    has left [run]; then both queues go to [bulk_deallocate]. *)
Definition destructor_join (s : state) : option state :=
  let finish := log_batch (queue 1 s) (log_batch (queue 0 s) s) in
  if started_ s then
    match worker_ s with
    | WExited => Some finish
    | _ => None
    end
  else Some finish.

(** One record queued, the worker past the loop test and about to wait,
    and [stop] called at that moment. *)
Definition stop_before_wait : state :=
  {| deallocs_ := [[Scenario.region 1]; []]; queue_idx_ := 0; started_ := true;
     stopped_ := true; mtx_locked := true; worker_ := WWaitPred;
     client := CIdle; returned_to_pool := [] |}.

(** Case analysis on the result of a step. *)
Ltac step_cases :=
  repeat match goal with
         | H : Some _ = Some _ |- _ => injection H as <-
         | H : None = Some _ |- _ => discriminate H
         | H : context [if ?b then _ else _] |- _ => destruct b eqn:?
         | H : context [match ?x with _ => _ end] |- _ => destruct x eqn:?
         end.

End Handover.

(** ** The Numpy reader: the axis permutations

    Source: [NumpyReaderCPU::TransposeHelper] and
    [NumpyReaderCPU::SlicePermuteHelper].  The kernels they call are not
    among the sources; what is embedded is the permutation handed to them. *)

Module NumpyReaderCPU.
Local Open Scope Z_scope.

(** [for (int i = 0; i < n; ++i) perm[i] = n - i - 1;] on a vector that has
    [n] entries. *)
Definition reverse_axes (n : Z) (perm : list Z) : list Z :=
  fold_left (fun perm i => <[i := n - Z.of_nat i - 1]> perm)
            (seq 0 (Z.to_nat n)) perm.

(** [perm] in [TransposeHelper]: [perm.resize(n_dims)] value-initialises. *)
Definition TransposeHelper_perm (n_dims : Z) : list Z :=
  reverse_axes n_dims (replicate (Z.to_nat n_dims) 0).

(** [args.permuted_dims] in [SlicePermuteHelper], from the array the
    constructor of the arguments has left, for an element type among the
    allowed ones; [VALUE_SWITCH] fails for other numbers of dimensions than
    1 to 6. *)
Definition SlicePermuteHelper_permuted_dims (ndim : Z) (permuted_dims : list Z)
  : option (list Z) :=
  if (1 <=? ndim) && (ndim <=? 6) then Some (reverse_axes ndim permuted_dims)
  else None.

End NumpyReaderCPU.

(** ** Filling a tensor list with a constant

    Source: [dali/operators/generic/constant.cu], the kernel [Fill] and
    [FillTensorList].

    Device memory is the buffer of the tensor list after [dst.Resize(shape)],
    a list of bytes of whatever content, and pointers into it are byte
    offsets.  The calls go to one stream, so they take effect one after the
    other in program order.  A copy or a store outside the buffer, a copy
    between overlapping ranges and an overflow of [int] arithmetic are
    where the model stops: the first is an error of the call or undefined,
    the others are undefined.  [ConvertSat], [div_ceil], the layout of the
    tensor list and the object representation of a value come from headers
    that are not among the sources: they are variables here. *)

Module constant.
Local Open Scope Z_scope.

Definition int_max : Z := 2 ^ 31 - 1.

(** Conversion of a [size_t] to [int]. *)
Definition to_int (x : Z) : Z := (x + 2 ^ 31) mod 2 ^ 32 - 2 ^ 31.

(** Conversion of an [int64_t] to [unsigned int], as in [dim3(blocks)]. *)
Definition to_unsigned (x : Z) : Z := x mod 2 ^ 32.

Section Device.
Context {byte : Type}.

Definition in_bounds (off count : Z) (mem : list byte) : bool :=
  (0 <=? off) && (0 <=? count) && (off + count <=? Z.of_nat (length mem)).

(** The buffer with [data] stored at offset [off]. *)
Definition store (off : Z) (data : list byte) (mem : list byte) : list byte :=
  take (Z.to_nat off) mem ++ data ++ drop (Z.to_nat off + length data) mem.

(** [cudaMemcpyAsync(dst, src, count, cudaMemcpyHostToDevice, stream)] *)
Definition memcpy_host_to_device (dst : Z) (host : list byte) (count : Z)
           (mem : list byte) : option (list byte) :=
  if in_bounds dst count mem && (count <=? Z.of_nat (length host))
  then Some (store dst (take (Z.to_nat count) host) mem)
  else None.

(** [cudaMemcpyAsync(dst, src, count, cudaMemcpyDeviceToDevice, stream)] *)
Definition memcpy_device_to_device (dst src count : Z) (mem : list byte)
  : option (list byte) :=
  if in_bounds dst count mem && in_bounds src count mem
     && ((src + count <=? dst) || (dst + count <=? src))
  then Some (store dst (take (Z.to_nat count) (drop (Z.to_nat src) mem)) mem)
  else None.

(** The body of the kernel [Fill] in the thread with global index [i]:
    [if (i < count) data[i] = value;]. *)
Definition Fill (count : Z) (value : list byte) (i : Z) (mem : list byte)
  : option (list byte) :=
  if i <? count then
    if in_bounds (i * Z.of_nat (length value)) (Z.of_nat (length value)) mem
    then Some (store (i * Z.of_nat (length value)) value mem)
    else None
  else Some mem.

(** [Fill<<<dim3(blocks), dim3(threads), 0, stream>>>(data, count, value)]:
    every thread of the grid runs the body once; the threads store to
    different elements, so the order in which they are taken does not
    matter.  A grid of no block, or of more than [2 ^ 31 - 1] blocks, is not
    launched; the error is not looked at. *)
Definition launch_Fill (blocks threads count : Z) (value : list byte)
           (mem : list byte) : option (list byte) :=
  if (1 <=? to_unsigned blocks) && (to_unsigned blocks <=? 2 ^ 31 - 1) then
    fold_left (fun m i => match m with
                          | Some m => Fill count value (Z.of_nat i) m
                          | None => None
                          end)
              (seq 0 (Z.to_nat (to_unsigned blocks * to_unsigned threads)))
              (Some mem)
  else Some mem.

(** A device-to-device copy that has been issued: destination, source and
    byte count. *)
Record transfer := { to : Z; from : Z; count : Z }.

Section FillTensorList.
Context {Src Dst : Type}.
Variable ConvertSat : Src -> Dst.
Variable div_ceil : Z -> Z -> Z.
Variable sizeof_Dst : Z.
Variable representation : Dst -> list byte.
Variable mutable_tensor : Z -> Z.

(** The loop that doubles the data in device memory. *)
Fixpoint doubling (fuel : nat) (n N copied : Z) (mem : list byte)
         (issued : list transfer) : outcome (list byte * list transfer) :=
  if copied <? N then
    match fuel with
    | O => OutOfFuel
    | S fuel =>
        let to_copy := copied in
        if int_max <? copied + to_copy then Undefined
        else
          let to_copy := if N <? copied + to_copy then N - copied else to_copy in
          if (int_max <? n * to_copy) || (n * to_copy <? - int_max - 1)
          then Undefined
          else
            match memcpy_device_to_device (mutable_tensor copied) (mutable_tensor 0)
                                          (n * to_copy) mem with
            | None => Undefined
            | Some mem1 =>
                doubling fuel n N (copied + to_copy) mem1
                         (issued ++ [{| to := mutable_tensor copied;
                                        from := mutable_tensor 0;
                                        count := n * to_copy |}])
            end
    end
  else Returns (mem, issued).

(** [FillTensorList(dst, shape, src, stream)], with
    [num_samples = shape.num_samples()], [num_elements =
    shape.num_elements()] and the buffer of [dst] after [dst.Resize(shape)];
    the result is the buffer and the device-to-device copies issued.  The
    loop variable [copied] grows in every round, so [num_samples] rounds
    are fuel enough. *)
Definition FillTensorList (num_samples num_elements : Z) (src : list Src)
           (mem : list byte) : outcome (list byte * list transfer) :=
  if num_samples =? 0 then Returns (mem, [])
  else
    match src with
    | [value] =>
        let size := num_elements in
        let threads := 1024 in
        let blocks := div_ceil size threads in
        match launch_Fill blocks threads (size mod 2 ^ 64)
                          (representation (ConvertSat value)) mem with
        | Some mem1 => Returns (mem1, [])
        | None => Undefined
        end
    | _ =>
        let tmp := map ConvertSat src in
        let n := to_int ((Z.of_nat (length tmp) * sizeof_Dst) mod 2 ^ 64) in
        let N := num_samples in
        match memcpy_host_to_device (mutable_tensor 0)
                                    (concat (map representation tmp)) n mem with
        | None => Undefined
        | Some mem1 => doubling (Z.to_nat N) n N 1 mem1 []
        end
    end.

End FillTensorList.
End Device.

(** A list of samples of [n] bytes each, one after the other. *)
Definition contiguous (n : Z) (i : Z) : Z := i * n.

(** An instance: [int] source values, [int16_t] elements in two bytes,
    little endian. *)
Definition saturate_int16 (x : Z) : Z := Z.max (- 32768) (Z.min 32767 x).

Definition int16_bytes (x : Z) : list Z := [x mod 256; (x / 256) mod 256].

Definition round_up_div (a b : Z) : Z := (a + b - 1) / b.

End constant.

(** * Properties *)

(** ** Machine arithmetic *)

Module MachineFacts.
Import Machine Util.

Lemma wrap64_lt x : wrap64 x < size_max.
Proof. unfold wrap64. apply N.mod_lt. discriminate. Qed.

Lemma wrap64_small x : x < size_max -> wrap64 x = x.
Proof. intros H. unfold wrap64. now apply N.mod_small. Qed.

Lemma sub64_exact a b : b <= a -> a < size_max -> sub64 a b = a - b.
Proof.
  intros Hle Hlt. unfold sub64.
  assert (Hb : b < size_max) by lia.
  rewrite (wrap64_small b Hb). unfold wrap64.
  replace (a + (size_max - b)) with ((a - b) + 1 * size_max) by lia.
  rewrite N.Div0.mod_add. apply N.mod_small. lia.
Qed.

Lemma size_of_float_lt f n : size_of_float f = Some n -> n < size_max.
Proof.
  unfold size_of_float. destruct f as [s|s| |s m e]; try discriminate.
  - intros [= <-]. reflexivity.
  - set (v := if (0 <=? e)%Z then _ else _).
    destruct s.
    + destruct (v =? 0)%Z; [intros [= <-]; reflexivity | discriminate].
    + destruct (Z.ltb_spec v (Z.of_N size_max)) as [Hv|]; [|discriminate].
      intros [= <-]. clearbody v.
      destruct v as [|q|q]; [reflexivity | | reflexivity].
      apply N2Z.inj_lt. rewrite Z2N.id by lia. exact Hv.
Qed.

Lemma pow2_pos k : 0 < 2 ^ k.
Proof. apply N.neq_0_lt_0, N.pow_nonzero. discriminate. Qed.

Lemma pow2_split k : k <= 64 -> size_max = 2 ^ k * 2 ^ (64 - k).
Proof.
  intros Hk. unfold size_max. rewrite <- N.pow_add_r. f_equal. lia.
Qed.

Lemma pow2_lt_size_max k : k < 64 -> 2 ^ k < size_max.
Proof. intros Hk. unfold size_max. apply N.pow_lt_mono_r; lia. Qed.

Lemma testbit_above y i : y < size_max -> 64 <= i -> N.testbit y i = false.
Proof.
  intros Hy Hi. destruct (N.eq_dec y 0) as [->|Hn]; [apply N.bits_0|].
  apply N.bits_above_log2. apply N.lt_le_trans with 64; [|exact Hi].
  apply N.log2_lt_pow2; [lia | exact Hy].
Qed.

Lemma mask_shape k : k <= 64 -> size_max - 2 ^ k = N.shiftl (N.ones (64 - k)) k.
Proof.
  intros Hk. rewrite N.shiftl_mul_pow2, N.ones_equiv.
  rewrite (pow2_split k Hk).
  pose proof (pow2_pos (64 - k)). nia.
Qed.

(** Clearing the low [k] bits of a 64-bit value. *)
Lemma land_mask y k :
  k <= 64 -> y < size_max -> N.land y (size_max - 2 ^ k) = 2 ^ k * (y / 2 ^ k).
Proof.
  intros Hk Hy. rewrite mask_shape by exact Hk.
  rewrite N.mul_comm, <- N.shiftr_div_pow2, <- N.shiftl_mul_pow2.
  apply N.bits_inj. intros i. rewrite N.land_spec.
  destruct (N.lt_ge_cases i k) as [Hlt|Hge].
  - rewrite !N.shiftl_spec_low by exact Hlt. apply andb_false_r.
  - rewrite !N.shiftl_spec_high' by exact Hge.
    rewrite N.shiftr_spec'. replace (i - k + k) with i by lia.
    destruct (N.lt_ge_cases i 64) as [Hi|Hi].
    + rewrite N.ones_spec_low by lia. apply andb_true_r.
    + rewrite N.ones_spec_high by lia. rewrite andb_false_r.
      symmetry. now apply testbit_above.
Qed.

Lemma neg64_pow2 k : k < 64 -> neg64 (2 ^ k) = size_max - 2 ^ k.
Proof.
  intros Hk. unfold neg64, sub64. pose proof (pow2_lt_size_max k Hk).
  pose proof (pow2_pos k).
  rewrite (wrap64_small (2 ^ k)) by assumption.
  apply wrap64_small. lia.
Qed.

(** [align_up] to a power of two is the mathematical "align up", modulo
    [2 ^ 64]. *)
Lemma align_up_pow2 x k :
  k < 64 -> align_up x (2 ^ k) = wrap64 (Spec.align_to x (2 ^ k)).
Proof.
  intros Hk. unfold align_up, Spec.align_to.
  pose proof (pow2_lt_size_max k Hk) as Hlt. pose proof (pow2_pos k) as Hpos.
  rewrite sub64_exact by lia. rewrite neg64_pow2 by exact Hk.
  rewrite land_mask; [|lia|apply wrap64_lt].
  replace (x + 2 ^ k - 1) with (x + (2 ^ k - 1)) by lia.
  set (t := x + (2 ^ k - 1)). unfold wrap64.
  rewrite (pow2_split k) by lia.
  rewrite N.Div0.mul_mod_distr_l. f_equal.
  rewrite N.Div0.mod_mul_r.
  rewrite N.mul_comm, N.div_add by lia.
  rewrite N.div_small by (apply N.mod_lt; lia). reflexivity.
Qed.

End MachineFacts.

(** ** The growth cursor *)

Module GrowthCursor.
Import Machine Util MachineFacts pool_resource_base.

(** [Spec.align_to] is the least multiple of the alignment at or above the
    size. *)
Lemma align_to_least x a :
  0 < a ->
  x <= Spec.align_to x a /\ Spec.align_to x a < x + a /\
  Spec.align_to x a mod a = 0 /\
  (forall m, x <= a * m -> Spec.align_to x a <= a * m).
Proof.
  intros Ha. unfold Spec.align_to.
  pose proof (N.div_mod (x + a - 1) a ltac:(lia)) as Hdm.
  pose proof (N.mod_lt (x + a - 1) a ltac:(lia)) as Hlt.
  set (q := (x + a - 1) / a) in *. set (r := (x + a - 1) mod a) in *.
  repeat split.
  - lia.
  - lia.
  - rewrite N.mul_comm. apply N.Div0.mod_mul.
  - intros m Hm. apply N.mul_le_mono_l.
    destruct (N.le_gt_cases q m) as [Hle|Hgt]; [exact Hle|].
    assert (a * (m + 1) <= a * q) by (apply N.mul_le_mono_l; lia). lia.
Qed.

Lemma log2_size x : x < size_max -> N.log2 x <= 63.
Proof.
  intros Hx. destruct (N.eq_dec x 0) as [->|Hn]; [simpl; lia|].
  assert (N.log2 x < 64) by (apply N.log2_lt_pow2; [lia | exact Hx]). lia.
Qed.

(** The shift [1uL << std::max(ilog2(actual) - 10, 12)] is the
    specification's power of two; it lies between 4 KiB and [2 ^ 53]. *)
Lemma alignment_shift actual :
  actual < size_max ->
  wrap64 (N.shiftl 1 (Z.to_N (Z.max (ilog2 actual - 10) 12)))
  = Spec.block_alignment actual
  /\ N.max (N.log2 actual - 10) 12 < 64.
Proof.
  intros Hx. pose proof (log2_size actual Hx) as Hl.
  unfold ilog2, Spec.block_alignment.
  replace (Z.to_N (Z.max (Z.of_N (N.log2 actual) - 10) 12))
    with (N.max (N.log2 actual - 10) 12) by lia.
  split; [|lia].
  rewrite N.shiftl_1_l. apply wrap64_small. apply pow2_lt_size_max. lia.
Qed.

(** The code's result, written with the specification's formula. *)
Lemma next_block_size_eq {FL : Type} (upcoming : N) (p : pool FL) :
  upcoming < size_max ->
  next_block_size upcoming p =
    match size_of_float (fmul (float_of_size (next_block_size_ p))
                              (growth_factor (options_ p))) with
    | None => (Undefined, p)
    | Some grown =>
        let aligned :=
          wrap64 (fst (Spec.next_block_size upcoming grown
                                            (max_block_size (options_ p)))) in
        (Returns aligned,
         set_next_block_size (N.min aligned (max_block_size (options_ p))) p)
    end.
Proof.
  intros Hup. unfold next_block_size.
  destruct (size_of_float _) as [grown|] eqn:Hprod; [|reflexivity].
  assert (Hg : grown < size_max) by (eapply size_of_float_lt; exact Hprod).
  assert (Hact : N.max upcoming grown < size_max) by lia.
  destruct (alignment_shift _ Hact) as [Hshift Hk].
  cbv zeta. rewrite Hshift. unfold Spec.next_block_size. cbn [fst].
  unfold Spec.block_alignment at 1 2. rewrite !align_up_pow2 by exact Hk.
  reflexivity.
Qed.




(** The product is a single-precision one: the cursor [2 ^ 24 + 1] is not a
    [float], and its double comes out as [2 ^ 25]. *)
Example single_precision_product :
  size_of_float (fmul (float_of_size 16777217) (float_of_size 2)) = Some 33554432
  /\ size_of_float (fmul (float_of_size 4096) (float_of_size 2)) = Some 8192.
Proof. vm_compute. split; reflexivity. Qed.

End GrowthCursor.

(** ** The upstream acquisition protocol *)

Module UpstreamProtocol.
Import Machine Util MachineFacts GrowthCursor pool_resource_base Invariants.

Section Facts.
Context {FL : Type} {free_list_ops : FreeList FL}.
Variable env : environment.

(** *** What the helpers leave alone *)

Lemma fold_left_preserves {A B C : Type} (f : A -> B -> A) (g : A -> C) :
  (forall a b, g (f a b) = g a) ->
  forall l a, g (fold_left f l a) = g a.
Proof.
  intros Hf l. induction l as [|b l IH]; intros a; simpl; [reflexivity|].
  rewrite IH. apply Hf.
Qed.

Lemma synchronize_step_frame (st : Z * list Z * pool FL) par :
  options_ (snd (synchronize_step env st par)) = options_ (snd st)
  /\ blocks_ (snd (synchronize_step env st par)) = blocks_ (snd st)
  /\ next_block_size_ (snd (synchronize_step env st par)) = next_block_size_ (snd st)
  /\ free_list_ (snd (synchronize_step env st par)) = free_list_ (snd st).
Proof.
  destruct st as [[prev mask] p]. unfold synchronize_step.
  repeat match goal with |- context [if ?c then _ else _] => destruct c end;
    simpl; auto.
Qed.

Lemma synchronize_all_devices_frame (p : pool FL) :
  options_ (synchronize_all_devices env p) = options_ p
  /\ blocks_ (synchronize_all_devices env p) = blocks_ p
  /\ next_block_size_ (synchronize_all_devices env p) = next_block_size_ p
  /\ free_list_ (synchronize_all_devices env p) = free_list_ p.
Proof.
  unfold synchronize_all_devices.
  repeat split; apply fold_left_preserves; reflexivity.
Qed.

Lemma synchronize_fold_frame params :
  forall st : Z * list Z * pool FL,
  options_ (snd (fold_left (synchronize_step env) params st)) = options_ (snd st)
  /\ blocks_ (snd (fold_left (synchronize_step env) params st)) = blocks_ (snd st)
  /\ next_block_size_ (snd (fold_left (synchronize_step env) params st))
     = next_block_size_ (snd st)
  /\ free_list_ (snd (fold_left (synchronize_step env) params st))
     = free_list_ (snd st).
Proof.
  induction params as [|par params IH]; intros st; simpl; [auto|].
  destruct (IH (synchronize_step env st par)) as (H1 & H2 & H3 & H4).
  destruct (synchronize_step_frame st par) as (G1 & G2 & G3 & G4).
  rewrite H1, H2, H3, H4. auto.
Qed.

Lemma synchronize_span_frame params (p : pool FL) :
  options_ (synchronize_span env params p) = options_ p
  /\ blocks_ (synchronize_span env params p) = blocks_ p
  /\ next_block_size_ (synchronize_span env params p) = next_block_size_ p
  /\ free_list_ (synchronize_span env params p) = free_list_ p.
Proof.
  unfold synchronize_span. destruct (sync (options_ p)).
  - auto.
  - apply (synchronize_fold_frame params (_, _, p)).
  - apply synchronize_all_devices_frame.
Qed.

Lemma bulk_deallocate_frame params (p : pool FL) :
  options_ (bulk_deallocate env params p) = options_ p
  /\ blocks_ (bulk_deallocate env params p) = blocks_ p
  /\ next_block_size_ (bulk_deallocate env params p) = next_block_size_ p.
Proof.
  unfold bulk_deallocate. destruct params as [|par params]; [auto|].
  destruct (synchronize_span_frame (par :: params) p) as (H1 & H2 & H3 & _).
  rewrite <- H1, <- H2, <- H3.
  repeat split; apply fold_left_preserves; reflexivity.
Qed.

Lemma flush_deferred_frame (p : pool FL) :
  options_ (flush_deferred env p) = options_ p
  /\ blocks_ (flush_deferred env p) = blocks_ p
  /\ next_block_size_ (flush_deferred env p) = next_block_size_ p.
Proof.
  unfold flush_deferred.
  destruct (bulk_deallocate_frame (flushed env (trace (emit EvFlushDeferred p)))
                                  (emit EvFlushDeferred p)) as (H1 & H2 & H3).
  rewrite H1, H2, H3. auto.
Qed.

Lemma scan_blocks_frame blks (p : pool FL) :
  options_ (snd (scan_blocks blks p)) = options_ p
  /\ blocks_ (snd (scan_blocks blks p)) = blocks_ p
  /\ next_block_size_ (snd (scan_blocks blks p)) = next_block_size_ p.
Proof.
  revert p. induction blks as [|blk rest IH]; intros p; simpl; [auto|].
  destruct (fl_remove_if_in_list _ _ _) as [r fl].
  match goal with |- context [scan_blocks rest ?q] =>
    specialize (IH q); destruct (scan_blocks rest q) as [[rs n] p2] end.
  simpl in *. exact IH.
Qed.

Lemma release_removed_frame i removed (p : pool FL) :
  options_ (release_removed i removed p) = options_ p
  /\ next_block_size_ (release_removed i removed p) = next_block_size_ p
  /\ free_list_ (release_removed i removed p) = free_list_ p.
Proof.
  revert p. induction i as [|j IH]; intros p; simpl; [auto|].
  match goal with |- context [release_removed j removed ?q] =>
    destruct (IH q) as (H1 & H2 & H3); rewrite H1, H2, H3 end.
  destruct (removed !! j) as [[|]|]; destruct (blocks_ p !! j); auto.
Qed.

(** *** The trace only grows *)











(** *** The reclaim pass *)

Lemma scan_blocks_removed blks (p : pool FL) :
  length (fst (fst (scan_blocks blks p))) = length blks
  /\ snd (fst (scan_blocks blks p))
     = Z.of_nat (freed (fst (fst (scan_blocks blks p)))).
Proof.
  revert p. induction blks as [|blk rest IH]; intros p; simpl; [auto|].
  destruct (fl_remove_if_in_list _ _ _) as [r fl].
  match goal with |- context [scan_blocks rest ?q] =>
    specialize (IH q); destruct (scan_blocks rest q) as [[rs n] p2] end.
  simpl in *. destruct IH as [Hlen Hn]. split; [now rewrite Hlen|].
  rewrite Hn. unfold freed. simpl. destruct r; simpl; lia.
Qed.

Lemma freed_snoc removed r :
  freed (removed ++ [r]) = (freed removed + if r then 1 else 0)%nat.
Proof.
  unfold freed. rewrite List.filter_app, length_app. destruct r; reflexivity.
Qed.

(** The release loop gives back exactly the blocks the scan marked. *)
Lemma release_removed_length i removed :
  forall p : pool FL,
  (i <= length (blocks_ p))%nat ->
  (length (blocks_ (release_removed i removed p)) + freed (take i removed)
   = length (blocks_ p))%nat.
Proof.
  induction i as [|j IH]; intros p Hi; simpl release_removed.
  - rewrite take_0. unfold freed. simpl. lia.
  - destruct (lookup_lt_is_Some_2 (blocks_ p) j ltac:(lia)) as [blk Hblk].
    rewrite Hblk.
    destruct (removed !! j) as [r|] eqn:Hr.
    + rewrite (take_S_r _ _ _ Hr), freed_snoc.
      destruct r.
      * match goal with |- context [release_removed j removed ?q] =>
          specialize (IH q) end.
        simpl blocks_ in IH. rewrite length_delete in IH by eauto.
        specialize (IH ltac:(lia)). lia.
      * specialize (IH p ltac:(lia)). lia.
    + apply lookup_ge_None in Hr.
      rewrite !take_ge by lia. rewrite take_ge in IH by lia.
      specialize (IH p ltac:(lia)). exact IH.
Qed.

(** *** Who asks the free list about blocks *)

Lemma scans_emit e (p : pool FL) :
  scans (trace (emit e p))
  = (scans (trace p)
     + match e with EvFreeListRemove _ _ => 1 | _ => 0 end)%nat.
Proof.
  unfold scans. simpl. rewrite List.filter_app, length_app.
  destruct e; reflexivity.
Qed.

Lemma fold_left_scans {B : Type} (f : pool FL -> B -> pool FL) :
  (forall a b, scans (trace (f a b)) = scans (trace a)) ->
  forall l a, scans (trace (fold_left f l a)) = scans (trace a).
Proof.
  intros Hf l. induction l as [|b l IH]; intros a; simpl; [reflexivity|].
  rewrite IH. apply Hf.
Qed.

Lemma synchronize_fold_scans params :
  forall st : Z * list Z * pool FL,
  scans (trace (snd (fold_left (synchronize_step env) params st)))
  = scans (trace (snd st)).
Proof.
  induction params as [|par params IH]; intros st; simpl; [reflexivity|].
  rewrite IH. destruct st as [[prev mask] p]. unfold synchronize_step.
  repeat match goal with |- context [if ?c then _ else _] => destruct c end;
    simpl snd; rewrite ?scans_emit; simpl; lia.
Qed.

Lemma flush_deferred_scans (p : pool FL) :
  scans (trace (flush_deferred env p)) = scans (trace p).
Proof.
  unfold flush_deferred, bulk_deallocate.
  set (p1 := emit EvFlushDeferred p).
  assert (H1 : scans (trace p1) = scans (trace p))
    by (unfold p1; rewrite scans_emit; lia).
  destruct (flushed env (trace p1)) as [|par params]; [exact H1|].
  rewrite fold_left_scans.
  - unfold synchronize_span. destruct (sync (options_ p1)).
    + exact H1.
    + rewrite (synchronize_fold_scans (par :: params) (_, _, p1)). exact H1.
    + unfold synchronize_all_devices. rewrite fold_left_scans; [exact H1|].
      intros a b. rewrite scans_emit. lia.
  - intros a b. unfold free_list_put. rewrite scans_emit. simpl. lia.
Qed.




(** *** One turn of the loop *)

Lemma loop_body_success min_bytes alignment blk_size tried (p : pool FL) new_block :
  upstream_allocate env (trace p) blk_size alignment = Some new_block ->
  loop_body env min_bytes alignment blk_size tried p
  = (Allocated new_block,
     emit (EvUpstreamAllocate blk_size alignment (Some new_block)) p).
Proof. intros H. unfold loop_body. rewrite H. reflexivity. Qed.

(** A turn that goes round again has seen upstream fail, with
    [try_smaller_on_failure] set; it leaves [max(min_bytes, blk_size >> 1)]
    both as the next request and in the cursor; and it is either a plain
    shrinking turn or the reclaim pass, which needs [blk_size == min_bytes]
    and an unset [tried_return_to_upstream], and sets it. *)
Lemma loop_body_retry min_bytes alignment blk_size tried (p : pool FL) b t p' :
  loop_body env min_bytes alignment blk_size tried p = (Retry b t, p') ->
  upstream_allocate env (trace p) blk_size alignment = None
  /\ try_smaller_on_failure (options_ p) = true
  /\ b = N.max min_bytes (N.shiftr blk_size 1)
  /\ next_block_size_ p' = b
  /\ options_ p' = options_ p
  /\ ((blk_size <> min_bytes /\ t = tried)
      \/ (blk_size = min_bytes /\ tried = false /\ t = true
          /\ return_to_upstream_on_failure (options_ p) = true
          /\ (length (blocks_ p') < length (blocks_ p))%nat)).
Proof.
  unfold loop_body.
  destruct (upstream_allocate env (trace p) blk_size alignment) as [nb|] eqn:Hup;
    [discriminate|].
  set (p1 := emit _ p).
  destruct (flush_deferred_frame p1) as (Hopt & Hblk & Hnext).
  change (options_ p1) with (options_ p) in Hopt.
  rewrite Hopt.
  destruct (try_smaller_on_failure (options_ p)) eqn:Hts; simpl; [|discriminate].
  destruct (N.eqb_spec blk_size min_bytes) as [Heq|Hne].
  - destruct tried; simpl; [discriminate|].
    destruct (return_to_upstream_on_failure (options_ p)) eqn:Hrt; simpl;
      [|discriminate].
    destruct (blocks_ (flush_deferred env p1)) as [|b0 bs] eqn:Hbs; [discriminate|].
    pose proof (scan_blocks_frame (b0 :: bs) (flush_deferred env p1)) as Hscan.
    pose proof (scan_blocks_removed (b0 :: bs) (flush_deferred env p1)) as Hrem.
    destruct (scan_blocks (b0 :: bs) (flush_deferred env p1)) as [[removed n] p3].
    simpl in Hscan, Hrem. destruct Hscan as (S1 & S2 & S3).
    destruct Hrem as [Hlen Hn].
    destruct (Z.eqb_spec n 0) as [|Hfreed]; [discriminate|].
    unfold shrink. intros [= <- <- <-].
    destruct (release_removed_frame (length (blocks_ p3)) removed p3) as (R1 & R2 & R3).
    pose proof (release_removed_length (length (blocks_ p3)) removed p3 (le_n _))
      as Hrel.
    assert (Hl3 : length (blocks_ p3) = S (length bs)) by (now rewrite S2, Hbs).
    assert (Hl0 : length (blocks_ p) = S (length bs)).
    { change (blocks_ p) with (blocks_ p1). now rewrite <- Hblk. }
    rewrite take_ge in Hrel by lia.
    simpl. rewrite R1, S1, Hopt.
    repeat split; auto.
    right. repeat split; auto. lia.
  - unfold shrink. intros [= <- <- <-]. simpl. rewrite Hopt. auto 10.
Qed.


(** *** Termination *)











(** Every turn, classified. *)
Lemma loop_body_classified min_bytes alignment blk_size tried (p : pool FL) :
  match fst (loop_body env min_bytes alignment blk_size tried p) with
  | Allocated new_block =>
      upstream_allocate env (trace p) blk_size alignment = Some new_block
  | Rethrow => upstream_allocate env (trace p) blk_size alignment = None
  | Retry b t =>
      min_bytes <= b
      /\ ((min_bytes < blk_size /\ b < blk_size /\ t = tried)
          \/ (blk_size = min_bytes /\ b = min_bytes /\ tried = false /\ t = true
              /\ (length (blocks_ (snd (loop_body env min_bytes alignment
                                                 blk_size tried p)))
                  < length (blocks_ p))%nat)
          \/ (blk_size < min_bytes /\ b = min_bytes /\ t = tried))
  end.
Proof.
  destruct (loop_body env min_bytes alignment blk_size tried p)
    as [[nb| |b t] p1] eqn:Hbody; simpl.
  - unfold loop_body in Hbody.
    destruct (upstream_allocate env (trace p) blk_size alignment) as [q|].
    + now inversion Hbody.
    + exfalso. revert Hbody.
      repeat match goal with
             | |- context [if ?c then _ else _] => destruct c
             | |- context [match blocks_ ?x with _ => _ end] => destruct (blocks_ x)
             | |- context [scan_blocks ?l ?x] => destruct (scan_blocks l x) as [[? ?] ?]
             end; unfold shrink; discriminate.
  - unfold loop_body in Hbody.
    destruct (upstream_allocate env (trace p) blk_size alignment) as [q|];
      [discriminate | reflexivity].
  - apply loop_body_retry in Hbody.
    destruct Hbody as (_ & _ & Hb & _ & _ & Hcase).
    rewrite N.shiftr_div_pow2 in Hb. change (2 ^ 1) with 2 in Hb.
    pose proof (N.div_mod blk_size 2 ltac:(discriminate)) as Hdm.
    pose proof (N.mod_lt blk_size 2 ltac:(discriminate)) as Hm.
    set (h := blk_size / 2) in *. clearbody h.
    set (m := blk_size mod 2) in *. clearbody m.
    split; [lia|].
    destruct Hcase as [[Hne ->]|(-> & -> & -> & _ & Hfreed)].
    + destruct (N.lt_ge_cases min_bytes blk_size); [left | right; right];
        repeat split; lia || reflexivity.
    + right; left. repeat split; lia || reflexivity || exact Hfreed.
Qed.




(** *** Recording the block *)

(** When the loop returns a block, its last action was the successful
    request for exactly that block. *)
Lemma upstream_loop_returns fuel :
  forall min_bytes alignment blk_size tried (p : pool FL) new_block b p2,
  upstream_loop env fuel min_bytes alignment blk_size tried p
  = (Returns (new_block, b), p2) ->
  exists q : pool FL,
    p2 = emit (EvUpstreamAllocate b alignment (Some new_block)) q
    /\ upstream_allocate env (trace q) b alignment = Some new_block.
Proof.
  induction fuel as [|fuel IH];
    intros min_bytes alignment blk_size tried p new_block b p2; simpl;
    [discriminate|].
  pose proof (loop_body_classified min_bytes alignment blk_size tried p) as Hc.
  destruct (loop_body env min_bytes alignment blk_size tried p)
    as [[nb| |b' t] p1] eqn:Hbody; simpl in Hc.
  - intros [= <- <- <-]. exists p. split; [|exact Hc].
    rewrite (loop_body_success _ _ _ _ _ _ Hc) in Hbody. now inversion Hbody.
  - discriminate.
  - apply IH.
Qed.

Lemma upstream_balance_app tr1 tr2 b :
  upstream_balance (tr1 ++ tr2) b
  = (upstream_balance tr1 b + upstream_balance tr2 b)%Z.
Proof.
  unfold upstream_balance. rewrite fold_left_app.
  generalize (fold_left
    (fun acc e =>
       match e with
       | EvUpstreamAllocate n a (Some q) =>
           if block_eqb {| blk_ptr := q; blk_bytes := n; blk_alignment := a |} b
           then (acc + 1)%Z else acc
       | EvUpstreamDeallocate q n a =>
           if block_eqb {| blk_ptr := q; blk_bytes := n; blk_alignment := a |} b
           then (acc - 1)%Z else acc
       | _ => acc
       end) tr1 0%Z).
  induction tr2 as [|e tr2 IH]; intros z; simpl; [lia|].
  rewrite IH. rewrite (IH (match e with
                           | EvUpstreamAllocate n a (Some q) => _
                           | EvUpstreamDeallocate q n a => _
                           | _ => _ end)).
  destruct e as [n a [q|]|q n a| | | | | |]; try lia;
    destruct (block_eqb _ b); lia.
Qed.

(** C7.  If [blocks_.push_back] fails after upstream has handed out a block,
    [get_upstream_block] gives exactly that block back to upstream, as its
    last action, and then throws; the owned-blocks list and the free list are
    as they were before the block was requested, and no block is held from
    upstream that was not held before the request. *)
Theorem push_back_failure_returns_block min_bytes alignment (p : pool FL)
        blk_size p1 new_block b p2 :
  next_block_size min_bytes p = (Returns blk_size, p1) ->
  upstream_loop env (loop_fuel blk_size) min_bytes alignment blk_size false p1
  = (Returns (new_block, b), p2) ->
  push_back_ok env (blocks_ p2) = false ->
  exists (q p3 : pool FL),
    get_upstream_block env min_bytes alignment p = (Throws push_back_failure, p3)
    /\ upstream_allocate env (trace q) b alignment = Some new_block
    /\ trace p3 = trace q ++ [EvUpstreamAllocate b alignment (Some new_block);
                              EvUpstreamDeallocate new_block b alignment]
    /\ blocks_ p3 = blocks_ q
    /\ free_list_ p3 = free_list_ q
    /\ (forall blk, upstream_balance (trace p3) blk = upstream_balance (trace q) blk).
Proof.
  intros Hnext Hloop Hfail.
  destruct (upstream_loop_returns _ _ _ _ _ _ _ _ _ Hloop) as (q & Hp2 & Hup).
  exists q, (upstream_deallocate new_block b alignment p2).
  split.
  { unfold get_upstream_block. rewrite Hnext, Hloop, Hfail. reflexivity. }
  split; [exact Hup|].
  assert (Htr : trace (upstream_deallocate new_block b alignment p2)
                = trace q ++ [EvUpstreamAllocate b alignment (Some new_block);
                              EvUpstreamDeallocate new_block b alignment]).
  { subst p2. simpl. rewrite <- app_assoc. reflexivity. }
  split; [exact Htr|].
  split; [subst p2; reflexivity|].
  split; [subst p2; reflexivity|].
  intros blk. rewrite Htr, upstream_balance_app.
  unfold upstream_balance at 2. simpl.
  destruct (block_eqb _ blk); lia.
Qed.

(** *** [do_allocate] *)

Lemma align_up_lt x a : align_up x a < size_max.
Proof.
  unfold align_up. eapply N.le_lt_trans; [apply N.land_le_l | apply wrap64_lt].
Qed.

Lemma next_block_size_lt min_bytes (p : pool FL) blk_size p1 :
  next_block_size min_bytes p = (Returns blk_size, p1) -> blk_size < size_max.
Proof.
  unfold next_block_size. destruct (size_of_float _); [|discriminate].
  intros [= <- _]. apply align_up_lt.
Qed.

Lemma upstream_loop_size fuel :
  forall min_bytes alignment blk_size tried (p : pool FL) new_block b p2,
  min_bytes < size_max -> blk_size < size_max ->
  upstream_loop env fuel min_bytes alignment blk_size tried p
  = (Returns (new_block, b), p2) ->
  b < size_max.
Proof.
  induction fuel as [|fuel IH];
    intros min_bytes alignment blk_size tried p new_block b p2 Hmin Hblk; simpl;
    [discriminate|].
  pose proof (loop_body_classified min_bytes alignment blk_size tried p) as Hc.
  destruct (loop_body env min_bytes alignment blk_size tried p)
    as [[nb| |b' t] p1] eqn:Hbody; simpl in Hc.
  - intros [= _ <- _]. exact Hblk.
  - discriminate.
  - apply IH; [exact Hmin|]. lia.
Qed.

Lemma get_upstream_block_size min_bytes alignment (p : pool FL) new_block b p2 :
  min_bytes < size_max ->
  get_upstream_block env min_bytes alignment p = (Returns (new_block, b), p2) ->
  b < size_max.
Proof.
  intros Hmin. unfold get_upstream_block.
  destruct (next_block_size min_bytes p) as [[blk|e| |] p1] eqn:Hnext;
    try discriminate.
  pose proof (next_block_size_lt _ _ _ _ Hnext) as Hblk.
  destruct (upstream_loop env (loop_fuel blk) min_bytes alignment blk false p1)
    as [[[nb b']|e| |] q] eqn:Hloop; try discriminate.
  pose proof (upstream_loop_size _ _ _ _ _ _ _ _ _ Hmin Hblk Hloop) as Hb.
  destruct (push_back_ok env (blocks_ q)); [|discriminate].
  intros [= _ <- _]. exact Hb.
Qed.

(** C1.  An [allocate(bytes, alignment)] with [bytes > 0] that misses the
    free list and gets a block of [blk_size] bytes from upstream returns the
    start of the block.  If [blk_size == bytes] the pool is left as
    [get_upstream_block] left it: nothing is put in the free list.  If
    [blk_size > bytes] the one further action is
    [free_list_.put(block + bytes, blk_size - bytes)]. *)
Theorem do_allocate_from_upstream bytes alignment (p p1 p2 : pool FL)
        new_block blk_size :
  0 < bytes -> bytes < size_max ->
  free_list_get bytes alignment p = (0, p1) ->
  get_upstream_block env bytes (N.max alignment (upstream_alignment (options_ p1))) p1
  = (Returns (new_block, blk_size), p2) ->
  (blk_size = bytes ->
   do_allocate env bytes alignment p = (Returns new_block, p2))
  /\ (bytes < blk_size ->
      do_allocate env bytes alignment p
      = (Returns new_block,
         free_list_put (new_block + bytes) (blk_size - bytes) p2)
      /\ trace (snd (do_allocate env bytes alignment p))
         = trace p2 ++ [EvFreeListPut (new_block + bytes) (blk_size - bytes)]
      /\ free_list_ (snd (do_allocate env bytes alignment p))
         = fl_put (new_block + bytes) (blk_size - bytes) (free_list_ p2)).
Proof.
  intros Hpos Hbytes Hmiss Hget.
  pose proof (get_upstream_block_size _ _ _ _ _ _ Hbytes Hget) as Hblk.
  unfold do_allocate.
  destruct (N.eqb_spec bytes 0) as [|_]; [lia|].
  rewrite Hmiss. simpl. rewrite Hget.
  split.
  - intros ->. rewrite N.eqb_refl. reflexivity.
  - intros Hlt. destruct (N.eqb_spec blk_size bytes) as [|_]; [lia|].
    rewrite sub64_exact by lia. auto.
Qed.

End Facts.

(** *** Concrete runs *)

#[local] Existing Instance coalescing_free_list.ops.



(** The block list cannot grow: the block goes back and the call throws. *)
Lemma push_back_failure_returns_block_witness :
  fst (get_upstream_block (Mock.upstream (2 ^ 30) false) 100 256 Mock.host_pool)
  = Throws push_back_failure.
Proof.
  destruct (push_back_failure_returns_block
              (Mock.upstream (2 ^ 30) false) 100 256 Mock.host_pool 8192
              (set_next_block_size 8192 Mock.host_pool) 65536 8192
              (emit (EvUpstreamAllocate 8192 256 (Some 65536))
                    (set_next_block_size 8192 Mock.host_pool)))
    as (q & p3 & Hcall & _);
    [reflexivity | reflexivity | reflexivity |].
  rewrite Hcall. reflexivity.
Defined.

(** 100 bytes from a fresh host pool: an 8 KiB block, whose tail goes to
    the free list. *)
Lemma do_allocate_from_upstream_witness :
  do_allocate (Mock.upstream (2 ^ 30) true) 100 8 Mock.host_pool
  = (Returns 65536,
     free_list_put (65536 + 100) (8192 - 100)
       (snd (get_upstream_block (Mock.upstream (2 ^ 30) true) 100 256
               (snd (free_list_get 100 8 Mock.host_pool))))).
Proof.
  destruct (do_allocate_from_upstream
              (Mock.upstream (2 ^ 30) true) 100 8 Mock.host_pool
              (snd (free_list_get 100 8 Mock.host_pool))
              (snd (get_upstream_block (Mock.upstream (2 ^ 30) true) 100 256
                      (snd (free_list_get 100 8 Mock.host_pool))))
              65536 8192) as [_ Htail];
    [reflexivity | reflexivity | reflexivity | reflexivity |].
  apply Htail. reflexivity.
Defined.

End UpstreamProtocol.

(** ** Bulk synchronisation *)

Module BulkSync.
Import Machine pool_resource_base Invariants.
Local Open Scope Z_scope.

(** *** The bit set *)

Lemma shift_one k : 0 <= k < 32 -> Z.shiftl 1 k mod 2 ^ 32 = 2 ^ k.
Proof.
  intros Hk. rewrite Z.shiftl_1_l. apply Z.mod_small.
  split; [apply Z.pow_nonneg; lia | apply Z.pow_lt_mono_r; lia].
Qed.

Lemma land_pow2_test w k : 0 <= k -> (Z.land w (2 ^ k) =? 0) = negb (Z.testbit w k).
Proof.
  intros Hk.
  assert (Hland : Z.land w (2 ^ k) = if Z.testbit w k then 2 ^ k else 0).
  { apply Z.bits_inj'. intros i Hi. rewrite Z.land_spec, Z.pow2_bits_eqb by exact Hk.
    destruct (Z.eqb_spec k i) as [->|Hne].
    - destruct (Z.testbit w i); simpl.
      + rewrite Z.pow2_bits_eqb by exact Hi. now rewrite Z.eqb_refl.
      + now rewrite Z.bits_0.
    - rewrite andb_false_r. destruct (Z.testbit w k).
      + rewrite Z.pow2_bits_eqb by exact Hk.
        symmetry. now apply Z.eqb_neq.
      + now rewrite Z.bits_0. }
  rewrite Hland. destruct (Z.testbit w k); simpl; [|reflexivity].
  apply Z.eqb_neq. apply Z.pow_nonzero; lia.
Qed.

Lemma lor_pow2_test w k j :
  0 <= k -> 0 <= j -> Z.testbit (Z.lor w (2 ^ k)) j = Z.testbit w j || (k =? j).
Proof. intros Hk Hj. now rewrite Z.lor_spec, Z.pow2_bits_eqb. Qed.

Lemma split_device d :
  0 <= d < 256 ->
  Z.shiftr d 5 = d / 32 /\ Z.land d 31 = d mod 32
  /\ 0 <= d / 32 < 8 /\ 0 <= d mod 32 < 32.
Proof.
  intros Hd. rewrite Z.shiftr_div_pow2 by lia.
  change 31 with (Z.ones 5). rewrite Z.land_ones by lia.
  change (2 ^ 5) with 32.
  pose proof (Z.div_mod d 32 ltac:(lia)).
  pose proof (Z.mod_pos_bound d 32 ltac:(lia)).
  repeat split; lia.
Qed.

Lemma represents_empty : represents (replicate 8 0) [].
Proof.
  split; [reflexivity|]. intros d Hd. unfold marked.
  destruct (replicate 8 0 !! Z.to_nat (Z.shiftr d 5)) as [w|] eqn:Hw; simpl.
  - apply lookup_replicate in Hw. destruct Hw as [-> _]. apply Z.bits_0.
  - apply Z.bits_0.
Qed.

Lemma represents_mark dev_mask seen d :
  represents dev_mask seen -> 0 <= d < 256 ->
  represents
    (<[Z.to_nat (Z.shiftr d 5) :=
         Z.lor (default 0 (dev_mask !! Z.to_nat (Z.shiftr d 5)))
               (Z.shiftl 1 (Z.land d 31) mod 2 ^ 32)]> dev_mask)
    (d :: seen).
Proof.
  intros [Hlen Hrep] Hd. split; [now rewrite length_insert|].
  intros d' Hd'. simpl. rewrite <- (Hrep d' Hd'). unfold marked.
  destruct (split_device d Hd) as (Hs & Hl & Hq & Hr).
  destruct (split_device d' Hd') as (Hs' & Hl' & Hq' & Hr').
  rewrite Hs, Hl, Hs', Hl'. rewrite shift_one by exact Hr.
  destruct (Z.eq_dec (d' / 32) (d / 32)) as [Heq|Hne].
  - rewrite Heq. rewrite list_lookup_insert_eq by lia. simpl.
    rewrite lor_pow2_test by lia.
    rewrite orb_comm. f_equal.
    destruct (Z.eqb_spec (d mod 32) (d' mod 32)) as [Hm|Hm];
      destruct (Z.eqb_spec d' d) as [Hdd|Hdd]; try reflexivity.
    + exfalso. apply Hdd.
      pose proof (Z.div_mod d 32 ltac:(lia)). pose proof (Z.div_mod d' 32 ltac:(lia)).
      lia.
    + exfalso. apply Hm. now rewrite Hdd.
  - rewrite list_lookup_insert_ne by lia.
    destruct (Z.eqb_spec d' d) as [Hdd|Hdd]; [|reflexivity].
    exfalso. apply Hne. now rewrite Hdd.
Qed.

(** *** The loop against the policy *)

Section Facts.
Context {FL : Type}.
Variable env : environment.

Lemma resolve_nonneg dev :
  0 <= current_device env -> 0 <= resolve (current_device env) dev.
Proof. intros Hc. unfold resolve. destruct (Z.ltb_spec dev 0); lia. Qed.

Lemma synchronize_fold_policy params :
  forall prev dev_mask seen (p : pool FL),
  0 <= current_device env ->
  represents dev_mask seen ->
  trace (snd (fold_left (synchronize_step env) params (prev, dev_mask, p)))
  = trace p ++
    map EvDeviceSynchronize
        (Spec.synchronized kMaxDevices seen prev
           (map (resolve (current_device env)) (map sync_device params))).
Proof.
  induction params as [|par params IH]; intros prev dev_mask seen p Hc Hrep.
  - simpl. now rewrite app_nil_r.
  - cbn [fold_left map Spec.synchronized].
    pose proof (resolve_nonneg (sync_device par) Hc) as Hd.
    unfold synchronize_step at 2.
    fold (resolve (current_device env) (sync_device par)).
    set (dev := resolve (current_device env) (sync_device par)) in *.
    destruct (Z.ltb_spec dev kMaxDevices) as [Hlt|Hge].
    + assert (Hrange : 0 <= dev < 256) by (unfold kMaxDevices in Hlt; lia).
      destruct (split_device dev Hrange) as (Hs & Hl & Hq & Hr).
      assert (Htest :
        negb (Z.land (default 0 (dev_mask !! Z.to_nat (Z.shiftr dev 5)))
                     (Z.shiftl 1 (Z.land dev 31) mod 2 ^ 32) =? 0)
        = existsb (Z.eqb dev) seen).
      { destruct Hrep as [_ Hrep]. rewrite <- (Hrep dev Hrange). unfold marked.
        rewrite Hl, shift_one by exact Hr. rewrite land_pow2_test by lia.
        apply negb_involutive. }
      rewrite Htest. destruct (existsb (Z.eqb dev) seen).
      * now apply IH.
      * rewrite (IH dev _ (dev :: seen)); [|exact Hc|now apply represents_mark].
        simpl. now rewrite <- app_assoc.
    + destruct (Z.eqb_spec dev prev) as [Heq|Hne].
      * now apply IH.
      * rewrite (IH dev _ seen); [|exact Hc|exact Hrep].
        simpl. now rewrite <- app_assoc.
Qed.

End Facts.

(** *** The policy *)

Lemma synchronized_below limit devs :
  (forall d, In d devs -> d < limit) ->
  forall seen prev, Spec.synchronized limit seen prev devs = Spec.distinct seen devs.
Proof.
  induction devs as [|d devs IH]; intros Hall seen prev; simpl; [reflexivity|].
  assert (Hd : d < limit) by (apply Hall; now left).
  assert (Hrest : forall x, In x devs -> x < limit) by (intros x Hx; apply Hall; now right).
  destruct (Z.ltb_spec d limit); [|lia].
  destruct (existsb (Z.eqb d) seen); [|f_equal]; now apply IH.
Qed.

Lemma existsb_eqb_In d l : existsb (Z.eqb d) l = true <-> In d l.
Proof.
  rewrite existsb_exists. split.
  - intros (x & Hx & Heq). apply Z.eqb_eq in Heq. now subst.
  - intros H. exists d. split; [exact H | apply Z.eqb_refl].
Qed.

Lemma distinct_In seen devs d :
  In d (Spec.distinct seen devs) <-> In d devs /\ ~ In d seen.
Proof.
  revert seen. induction devs as [|h devs IH]; intros seen; simpl; [tauto|].
  destruct (existsb (Z.eqb h) seen) eqn:Hh.
  - apply existsb_eqb_In in Hh. rewrite IH. split.
    + tauto.
    + intros [[->|Hin] Hn]; [contradiction | tauto].
  - assert (Hn : ~ In h seen).
    { intros Hin. apply existsb_eqb_In in Hin. congruence. }
    simpl. rewrite IH. simpl. split.
    + intros [->|[Hin Hns]]; [tauto|]. split; [tauto|]. intros Hs. apply Hns. now right.
    + intros [[->|Hin] Hns]; [now left|].
      destruct (Z.eq_dec h d) as [->|Hne]; [now left|].
      right. split; [exact Hin|]. intros [Heq|Hs]; [congruence | contradiction].
Qed.

Lemma distinct_NoDup seen devs : List.NoDup (Spec.distinct seen devs).
Proof.
  revert seen. induction devs as [|h devs IH]; intros seen; simpl; [constructor|].
  destruct (existsb (Z.eqb h) seen); [apply IH|].
  constructor; [|apply IH].
  rewrite distinct_In. intros [_ Hn]. apply Hn. now left.
Qed.

(** A device inside the bit set's range is synchronised once if the batch
    refers to it and it was not seen before, and not at all otherwise. *)
Lemma synchronized_count limit devs d :
  d < limit ->
  forall seen prev,
  count_occ Z.eq_dec (Spec.synchronized limit seen prev devs) d
  = if existsb (Z.eqb d) seen then 0%nat
    else if existsb (Z.eqb d) devs then 1%nat else 0%nat.
Proof.
  intros Hd. induction devs as [|h devs IH]; intros seen prev; simpl.
  - now destruct (existsb (Z.eqb d) seen).
  - destruct (Z.ltb_spec h limit) as [Hh|Hh].
    + destruct (existsb (Z.eqb h) seen) eqn:Hseen.
      * rewrite IH. destruct (existsb (Z.eqb d) seen) eqn:Hds; [reflexivity|].
        destruct (Z.eqb_spec d h) as [->|_]; [congruence | reflexivity].
      * simpl. rewrite IH. simpl.
        destruct (Z.eq_dec h d) as [->|Hne].
        -- rewrite Z.eqb_refl, Hseen. reflexivity.
        -- destruct (Z.eqb_spec d h) as [|_]; [congruence|]. simpl.
           now destruct (existsb (Z.eqb d) seen).
    + assert (Hne : h <> d) by lia.
      destruct (Z.eqb_spec d h) as [|_]; [congruence|]. simpl.
      destruct (Z.eqb_spec h prev).
      * apply IH.
      * simpl. destruct (Z.eq_dec h d); [contradiction|]. apply IH.
Qed.

(** C6, as amended.  With [sync_scope::device], [synchronize(span)]
    synchronises the devices that the policy names, in order: a device id
    below 256 at its first appearance only, a device id of 256 or more
    whenever it differs from the device synchronised last.  So every device
    below 256 that the batch refers to is synchronised exactly once; a batch
    of devices below 256 only has each distinct device synchronised exactly
    once, in order of first appearance; and the batch on devices 2, 2, 5, 2
    gives the two synchronisations 2 and 5. *)
Theorem synchronize_span_device {FL : Type} (env : environment)
        (params : list dealloc_params) (p : pool FL) :
  0 <= current_device env ->
  sync (options_ p) = scope_device ->
  let devs := map (resolve (current_device env)) (map sync_device params) in
  let synced := Spec.synchronized kMaxDevices [] (-1) devs in
  trace (synchronize_span env params p) = trace p ++ map EvDeviceSynchronize synced
  /\ (forall d, d < kMaxDevices ->
        count_occ Z.eq_dec synced d = if existsb (Z.eqb d) devs then 1%nat else 0%nat)
  /\ ((forall d, In d devs -> d < kMaxDevices) ->
      synced = Spec.distinct [] devs
      /\ List.NoDup synced
      /\ (forall d, In d synced <-> In d devs))
  /\ (map sync_device params = [2; 2; 5; 2] -> synced = [2; 5]).
Proof.
  intros Hc Hsync devs synced.
  split.
  { unfold synchronize_span. rewrite Hsync.
    apply (synchronize_fold_policy env params (-1) _ [] p Hc represents_empty). }
  split.
  { intros d Hd. unfold synced. rewrite synchronized_count by exact Hd. reflexivity. }
  split.
  { intros Hall.
    assert (Heq : synced = Spec.distinct [] devs)
      by (apply synchronized_below; exact Hall).
    split; [exact Heq|]. rewrite Heq.
    split; [apply distinct_NoDup|].
    intros d. rewrite distinct_In. simpl. tauto. }
  intros Hbatch. unfold synced, devs. rewrite Hbatch. reflexivity.
Qed.

Lemma synchronize_span_device_witness :
  trace (synchronize_span (Mock.upstream 0 true)
                          (map Mock.on_device [2; 2; 5; 2]) Mock.device_pool)
  = map EvDeviceSynchronize [2; 5].
Proof.
  destruct (synchronize_span_device (Mock.upstream 0 true)
              (map Mock.on_device [2; 2; 5; 2]) Mock.device_pool)
    as (Htrace & _ & _ & Hbatch); [simpl; lia | reflexivity |].
  rewrite Htrace. rewrite Hbatch by reflexivity. reflexivity.
Defined.

(** Against C6 as it is worded: on the batch 300, 301, 300 the device 300 is
    synchronised twice. *)
Lemma device_300_synchronized_twice :
  count_occ Z.eq_dec
    (device_syncs
       (trace (synchronize_span (Mock.upstream 0 true)
                                (map Mock.on_device [300; 301; 300])
                                Mock.device_pool)))
    300 = 2%nat.
Proof. vm_compute. reflexivity. Qed.

End BulkSync.

(** ** The deferred deallocator *)

Module Deferred.
Import deferred_dealloc_pool.
Local Open Scope Z_scope.

(** *** The worker's wait predicate *)

Lemma wait_predicate_shape s :
  wait_predicate s = negb (stopped_ s && negb (is_empty (queue (queue_idx_ s) s))).
Proof.
  unfold wait_predicate. destruct (stopped_ s), (is_empty _); reflexivity.
Qed.

(** While the pool is not stopped the worker never blocks in [cv_.wait]. *)
Lemma worker_never_blocks s :
  worker_ s = WWaitPred -> stopped_ s = false ->
  run s = Some (set_worker WAfterWait s).
Proof.
  intros Hpc Hrun. unfold run. rewrite Hpc.
  unfold wait_predicate. rewrite Hrun. reflexivity.
Qed.

(** C4.  The predicate of the source is not the one the specification asks
    for.  With nothing queued and the pool running it holds, so the worker
    does not wait; with work queued and the pool stopped it does not hold,
    so the worker keeps waiting. *)
Theorem wait_predicate_differs :
  wait_predicate initial = true
  /\ Spec.wake_when_stopped_or_work initial = false
  /\ wait_predicate (set_stopped true (enqueue (Scenario.region 1) initial)) = false
  /\ Spec.wake_when_stopped_or_work
       (set_stopped true (enqueue (Scenario.region 1) initial)) = true.
Proof. repeat split. Qed.

(** *** [flush_deferred] *)

Lemma set_client_same s : set_client (client s) s = s.
Proof. destruct s; reflexivity. Qed.

(** C10.  With both queues empty [flush_deferred] returns at its first
    test: it neither locks [mtx_] (the step is possible even while the
    worker holds it) nor waits on [ready_], and the state after the call is
    the state before it; calling again changes nothing either. *)
Theorem flush_deferred_empty_queues (opt : pool_options) (s : state) :
  no_pending_deallocs s = true ->
  (forall k, flush_deferred FlushCheck k s = Some (set_client (resume k) s))
  /\ (client s = CIdle ->
      exec opt [ActCallFlush; ActClient] s = Some s
      /\ exec opt [ActCallFlush; ActClient; ActCallFlush; ActClient] s = Some s).
Proof.
  intros Hnone.
  assert (Hfirst : forall k, flush_deferred FlushCheck k s
                             = Some (set_client (resume k) s)).
  { intros k. unfold flush_deferred. rewrite Hnone. reflexivity. }
  split; [exact Hfirst|].
  intros Hidle.
  assert (Hcall : exec opt [ActCallFlush; ActClient] s = Some s).
  { simpl. rewrite Hidle. unfold do_allocate. simpl.
    unfold flush_deferred.
    change (no_pending_deallocs (set_client (CFlush FlushCheck KIdle) s))
      with (no_pending_deallocs s).
    rewrite Hnone. simpl. f_equal.
    destruct s; simpl in *; subst; reflexivity. }
  split; [exact Hcall|].
  change [ActCallFlush; ActClient; ActCallFlush; ActClient]
    with ([ActCallFlush; ActClient] ++ [ActCallFlush; ActClient]).
  revert Hcall. generalize [ActCallFlush; ActClient]. intros l Hl.
  assert (Happ : forall l1 l2 a b, exec opt l1 a = Some b ->
                                   exec opt (l1 ++ l2) a = exec opt l2 b).
  { induction l1 as [|x l1 IH]; intros l2 a b; simpl.
    - now intros [= ->].
    - destruct (step opt x a); [apply IH | discriminate]. }
  rewrite (Happ l l s s Hl). exact Hl.
Qed.

Lemma flush_deferred_empty_queues_witness :
  exec default_device_pool_opts [ActCallFlush; ActClient] initial = Some initial.
Proof.
  apply (flush_deferred_empty_queues default_device_pool_opts initial);
    reflexivity.
Defined.

(** *** Backpressure *)








End Deferred.

(** ** Null pointers and empty requests *)

Module NullAndZero.
Import pool_resource_base.
#[local] Existing Instance coalescing_free_list.ops.

(** C9, as amended.  [allocate(0, alignment)] returns the null pointer and
    leaves the pool, its trace included, as it was: no free-list call, no
    upstream call; so does [try_allocate_from_free(0, alignment)].
    [deferred_deallocate] does nothing for a null pointer and nothing for
    zero bytes, hence neither does [deallocate] on a deferred pool with
    deferred deallocation enabled.  The [deallocate] of the base pool has no
    such test: whatever the pointer and the size, it synchronises and ends
    with [free_list_.put(ptr, bytes)]. *)
Theorem null_and_zero {FL : Type} {free_list_ops : FreeList FL} (env : environment) :
  (forall alignment (p : pool FL),
     do_allocate env 0 alignment p = (Returns 0, p))
  /\ (forall alignment (p : pool FL),
        try_allocate_from_free 0 alignment p = (0, p))
  /\ (forall bytes alignment device_id s,
        deferred_dealloc_pool.deferred_deallocate env 0 bytes alignment device_id s = s)
  /\ (forall ptr alignment device_id s,
        deferred_dealloc_pool.deferred_deallocate env ptr 0 alignment device_id s = s)
  /\ (forall ptr bytes alignment (sp : deferred_dealloc_pool.state * pool FL),
        enable_deferred_deallocation (options_ (snd sp)) = true ->
        ptr = 0 \/ bytes = 0 ->
        deferred_dealloc_pool.do_deallocate env ptr bytes alignment sp = sp)
  /\ (forall ptr bytes alignment (p : pool FL),
        do_deallocate env ptr bytes alignment p
        = free_list_put ptr bytes (synchronize env p)
        /\ trace (do_deallocate env ptr bytes alignment p)
           = trace (synchronize env p) ++ [EvFreeListPut ptr bytes]).
Proof.
  split; [reflexivity|].
  split; [reflexivity|].
  split; [reflexivity|].
  split.
  { intros ptr alignment device_id s.
    unfold deferred_dealloc_pool.deferred_deallocate.
    rewrite N.eqb_refl, orb_true_r. reflexivity. }
  split.
  { intros ptr bytes alignment [s p] Hen Hz.
    unfold deferred_dealloc_pool.do_deallocate. simpl in *. rewrite Hen.
    f_equal. unfold deferred_dealloc_pool.deferred_deallocate.
    destruct Hz as [-> | ->]; [reflexivity|].
    rewrite N.eqb_refl, orb_true_r. reflexivity. }
  intros ptr bytes alignment p. split; reflexivity.
Qed.

Lemma null_and_zero_witness :
  deferred_dealloc_pool.do_deallocate (Mock.upstream 0 true) 0 64 8
    (deferred_dealloc_pool.initial, Mock.device_pool)
  = (deferred_dealloc_pool.initial, Mock.device_pool).
Proof.
  destruct (null_and_zero (Mock.upstream 0 true)) as (_ & _ & _ & _ & Hdealloc & _).
  apply Hdealloc; [reflexivity | left; reflexivity].
Defined.

(** Against C9 as it is worded: on the base pool, [deallocate] of the null
    pointer puts the region [(0, 64)] in the free list. *)
Lemma base_deallocate_null_is_not_a_no_op :
  trace Mock.host_pool = []
  /\ free_list_ Mock.host_pool = []
  /\ trace (do_deallocate (Mock.upstream 0 true) 0 64 8 Mock.host_pool)
     = [EvFreeListPut 0 64]
  /\ free_list_ (do_deallocate (Mock.upstream 0 true) 0 64 8 Mock.host_pool)
     = [(0, 64)].
Proof. vm_compute. repeat split. Qed.

End NullAndZero.

(** ** The specification's end-to-end scenarios, run on the model *)

Module Scenarios.
Import pool_resource_base Runs.
#[local] Existing Instance coalescing_free_list.ops.

(** Tail retention: the first allocation takes a block from upstream and
    keeps its tail; the second is served from the tail. *)
Example tail_retention :
  fst (do_allocate roomy 100 4 Mock.host_pool) = Returns 65536
  /\ upstream_calls (trace after_100) = [EvUpstreamAllocate 8192 256 (Some 65536)]
  /\ free_list_ after_100 = [(65636, 8092)]
  /\ fst (do_allocate roomy 200 4 after_100) = Returns 65636
  /\ upstream_calls (trace after_200) = upstream_calls (trace after_100).
Proof. vm_compute. repeat split. Qed.

(** Coalescing: once both regions are back the whole block can be taken
    from the free list. *)
Example coalescing :
  free_list_ after_frees = [(65536, 8192)]
  /\ fst (do_allocate roomy 8192 4 after_frees) = Returns 65536
  /\ upstream_calls (trace (snd (do_allocate roomy 8192 4 after_frees)))
     = upstream_calls (trace after_frees).
Proof. vm_compute. repeat split. Qed.

(** Shrink and reclaim: 16 KiB, 8 KiB and 4 KiB are refused, the free block
    goes back to upstream, and 4 KiB are granted. *)
Example shrink_and_reclaim :
  fst (get_upstream_block tight 4096 256 one_free_block) = Returns (73728, 4096)
  /\ skipn 1 (upstream_calls
                (trace (snd (get_upstream_block tight 4096 256 one_free_block))))
     = [ EvUpstreamAllocate 16384 256 None;
         EvUpstreamAllocate 8192 256 None;
         EvUpstreamAllocate 4096 256 None;
         EvUpstreamDeallocate 65536 8192 256;
         EvUpstreamAllocate 4096 256 (Some 73728) ]
  /\ blocks_ (snd (get_upstream_block tight 4096 256 one_free_block))
     = [{| blk_ptr := 73728; blk_bytes := 4096; blk_alignment := 256 |}]
  /\ free_list_ (snd (get_upstream_block tight 4096 256 one_free_block)) = [].
Proof. vm_compute. repeat split. Qed.

End Scenarios.

(** * Further properties of the pool *)

Module PoolFacts.
Import Machine Util MachineFacts GrowthCursor pool_resource_base Invariants.
Import UpstreamProtocol BulkSync Accounting.

Section Facts.
Context {FL : Type} {free_list_ops : FreeList FL}.
Variable env : environment.

(** *** How the trace grows *)

Lemma grows_refl P (p : pool FL) : grows_by P p p.
Proof. exists []. split; [symmetry; apply app_nil_r | constructor]. Qed.

Lemma grows_trans P (p q r : pool FL) :
  grows_by P p q -> grows_by P q r -> grows_by P p r.
Proof.
  intros (t1 & H1 & F1) (t2 & H2 & F2). exists (t1 ++ t2). split.
  - rewrite H2, H1. symmetry. apply app_assoc.
  - apply Forall_app. split; assumption.
Qed.

Lemma grows_emit (P : event -> Prop) e (p : pool FL) : P e -> grows_by P p (emit e p).
Proof. intros He. exists [e]. split; [reflexivity | repeat constructor; exact He]. Qed.

Lemma grows_weaken (P Q : event -> Prop) (p q : pool FL) :
  (forall e, P e -> Q e) -> grows_by P p q -> grows_by Q p q.
Proof.
  intros HPQ (tl & Htl & F). exists tl. split; [exact Htl|].
  eapply Forall_impl; [exact F | exact HPQ].
Qed.

Lemma fold_left_grows {B : Type} P (f : pool FL -> B -> pool FL) :
  (forall a b, grows_by P a (f a b)) ->
  forall l a, grows_by P a (fold_left f l a).
Proof.
  intros Hf l. induction l as [|b l IH]; intros a; simpl; [apply grows_refl|].
  eapply grows_trans; [apply Hf | apply IH].
Qed.

Lemma synchronize_fold_grows params :
  forall st : Z * list Z * pool FL,
  grows_by local (snd st) (snd (fold_left (synchronize_step env) params st)).
Proof.
  induction params as [|par params IH]; intros st; simpl; [apply grows_refl|].
  eapply grows_trans; [|apply IH].
  destruct st as [[prev mask] p]. unfold synchronize_step.
  repeat match goal with |- context [if ?c then _ else _] => destruct c end;
    cbn [snd]; (apply grows_refl || (apply grows_emit; reflexivity)).
Qed.

Lemma synchronize_span_grows params (p : pool FL) :
  grows_by local p (synchronize_span env params p).
Proof.
  unfold synchronize_span. destruct (sync (options_ p)).
  - apply grows_refl.
  - apply (synchronize_fold_grows params (_, _, p)).
  - unfold synchronize_all_devices. apply fold_left_grows.
    intros a b. apply grows_emit. reflexivity.
Qed.

Lemma free_list_put_grows ptr bytes (p : pool FL) :
  grows_by local p (free_list_put ptr bytes p).
Proof. exists [EvFreeListPut ptr bytes]. split; [reflexivity | repeat constructor]. Qed.

Lemma bulk_deallocate_grows params (p : pool FL) :
  grows_by local p (bulk_deallocate env params p).
Proof.
  unfold bulk_deallocate. destruct params as [|par params]; [apply grows_refl|].
  eapply grows_trans; [apply synchronize_span_grows|].
  apply fold_left_grows. intros a b. apply free_list_put_grows.
Qed.

Lemma flush_deferred_grows (p : pool FL) : grows_by local p (flush_deferred env p).
Proof.
  unfold flush_deferred.
  eapply grows_trans; [apply (grows_emit local EvFlushDeferred); reflexivity|].
  apply bulk_deallocate_grows.
Qed.

Lemma scan_blocks_grows blks (p : pool FL) :
  grows_by local p (snd (scan_blocks blks p)).
Proof.
  revert p. induction blks as [|blk rest IH]; intros p; cbn [scan_blocks].
  - apply grows_refl.
  - destruct (fl_remove_if_in_list _ _ _) as [r fl].
    set (q := emit (EvFreeListRemove (blk_ptr blk) (blk_bytes blk))
                   (set_free_list fl p)).
    specialize (IH q). destruct (scan_blocks rest q) as [[rs n] p2].
    cbn [snd] in *. eapply grows_trans; [|exact IH].
    exists [EvFreeListRemove (blk_ptr blk) (blk_bytes blk)].
    split; [reflexivity | repeat constructor].
Qed.

Lemma free_list_get_grows bytes alignment (p : pool FL) :
  grows_by local p (snd (free_list_get bytes alignment p)).
Proof.
  unfold free_list_get. destruct (fl_get _ _ _) as [q fl]. cbn [snd].
  exists [EvFreeListGet bytes alignment]. split; [reflexivity | repeat constructor].
Qed.

Lemma synchronize_grows (p : pool FL) : grows_by local p (synchronize env p).
Proof.
  unfold synchronize. destruct (sync (options_ p)).
  - apply grows_refl.
  - apply grows_emit. reflexivity.
  - unfold synchronize_all_devices. apply fold_left_grows.
    intros a b. apply grows_emit. reflexivity.
Qed.

(** *** The owned-blocks list against the calls to upstream *)

Lemma balance_local tl b : Forall local tl -> upstream_balance tl b = 0%Z.
Proof.
  induction tl as [|e tl IH] using rev_ind; intros Hall; [reflexivity|].
  apply Forall_app in Hall. destruct Hall as [Htl He].
  rewrite upstream_balance_app, (IH Htl).
  apply Forall_inv in He. destruct e as [n a [q|]|q n a| | | | | |];
    try discriminate He; reflexivity.
Qed.

Lemma balance_grows (p q : pool FL) b :
  grows_by local p q ->
  upstream_balance (trace q) b = upstream_balance (trace p) b.
Proof.
  intros (tl & Htl & Hall). rewrite Htl, upstream_balance_app.
  rewrite (balance_local tl b Hall). lia.
Qed.

Lemma accounts_grows (p q : pool FL) :
  grows_by local p q -> blocks_ q = blocks_ p -> accounts p -> accounts q.
Proof.
  intros Hg Hb Hacc b. rewrite (balance_grows p q b Hg), Hb. apply Hacc.
Qed.

Lemma owned_snoc blocks x b :
  owned (blocks ++ [x]) b = (owned blocks b + if block_eqb x b then 1 else 0)%Z.
Proof.
  unfold owned. rewrite List.filter_app, length_app. simpl.
  destruct (block_eqb x b); simpl; lia.
Qed.

Lemma owned_delete blocks j x b :
  blocks !! j = Some x ->
  owned (delete j blocks) b = (owned blocks b - if block_eqb x b then 1 else 0)%Z.
Proof.
  revert j. induction blocks as [|y blocks IH]; intros j Hj; [discriminate|].
  destruct j as [|j]; simpl in *.
  - injection Hj as ->. unfold owned. simpl.
    destruct (block_eqb x b); simpl; lia.
  - specialize (IH j Hj). unfold owned in *. simpl.
    destruct (block_eqb y b); simpl in *; lia.
Qed.

Lemma balance_emit e (p : pool FL) b :
  upstream_balance (trace (emit e p)) b
  = (upstream_balance (trace p) b + upstream_balance [e] b)%Z.
Proof. apply upstream_balance_app. Qed.

Lemma release_removed_accounts i removed :
  forall p : pool FL, accounts p -> accounts (release_removed i removed p).
Proof.
  induction i as [|j IH]; intros p Hacc; cbn [release_removed]; [exact Hacc|].
  apply IH.
  destruct (removed !! j) as [[|]|]; try exact Hacc.
  destruct (blocks_ p !! j) as [blk|] eqn:Hblk; [|exact Hacc].
  intros b. unfold upstream_deallocate.
  change (blocks_ (set_blocks ?l ?x)) with l.
  change (trace (set_blocks ?l ?x)) with (trace x).
  rewrite balance_emit, (owned_delete _ _ _ _ Hblk), (Hacc b).
  change (blocks_ (emit ?e p)) with (blocks_ p).
  unfold upstream_balance at 1. simpl.
  destruct blk as [q n a]. simpl. destruct (block_eqb _ b); lia.
Qed.

(** After a turn of the loop the list accounts for the blocks held, up to
    the block that the turn has just obtained. *)
Lemma loop_body_accounts min_bytes alignment blk_size tried (p : pool FL) :
  accounts p ->
  match fst (loop_body env min_bytes alignment blk_size tried p) with
  | Allocated new_block =>
      forall b,
        upstream_balance
          (trace (snd (loop_body env min_bytes alignment blk_size tried p))) b
        = (owned (blocks_ (snd (loop_body env min_bytes alignment blk_size tried p))) b
           + if block_eqb {| blk_ptr := new_block; blk_bytes := blk_size;
                             blk_alignment := alignment |} b
             then 1 else 0)%Z
  | _ => accounts (snd (loop_body env min_bytes alignment blk_size tried p))
  end.
Proof.
  intros Hacc. unfold loop_body.
  destruct (upstream_allocate env (trace p) blk_size alignment) as [nb|].
  { cbn [fst snd]. intros b. rewrite balance_emit, (Hacc b). reflexivity. }
  set (p1 := emit _ p).
  assert (H1 : accounts p1).
  { intros b. unfold p1. rewrite balance_emit, (Hacc b).
    change (upstream_balance [EvUpstreamAllocate blk_size alignment None] b)
      with 0%Z.
    change (blocks_ (emit (EvUpstreamAllocate blk_size alignment None) p))
      with (blocks_ p). lia. }
  assert (H2 : accounts (flush_deferred env p1)).
  { apply (accounts_grows p1); [apply flush_deferred_grows | | exact H1].
    apply flush_deferred_frame. }
  set (p2 := flush_deferred env p1) in *.
  destruct (negb (try_smaller_on_failure (options_ p2))); [exact H2|].
  destruct (blk_size =? min_bytes); [|exact H2].
  destruct (tried || _); [exact H2|].
  destruct (blocks_ p2) as [|b0 bs] eqn:Hbs; [exact H2|].
  pose proof (scan_blocks_grows (b0 :: bs) p2) as Hg.
  pose proof (scan_blocks_frame (b0 :: bs) p2) as (_ & Hb & _).
  destruct (scan_blocks (b0 :: bs) p2) as [[removed n] p3]. cbn [snd] in *.
  assert (H3 : accounts p3) by (apply (accounts_grows p2); assumption).
  destruct (n =? 0)%Z; [exact H3|].
  unfold shrink. cbn [fst snd].
  pose proof (release_removed_accounts (length (blocks_ p3)) removed p3 H3) as H4.
  exact H4.
Qed.

Lemma upstream_loop_accounts fuel :
  forall min_bytes alignment blk_size tried (p : pool FL),
  accounts p ->
  match fst (upstream_loop env fuel min_bytes alignment blk_size tried p) with
  | Returns (new_block, b') =>
      forall b,
        upstream_balance
          (trace (snd (upstream_loop env fuel min_bytes alignment blk_size tried p))) b
        = (owned (blocks_ (snd (upstream_loop env fuel min_bytes alignment
                                              blk_size tried p))) b
           + if block_eqb {| blk_ptr := new_block; blk_bytes := b';
                             blk_alignment := alignment |} b
             then 1 else 0)%Z
  | _ => accounts (snd (upstream_loop env fuel min_bytes alignment blk_size tried p))
  end.
Proof.
  induction fuel as [|fuel IH]; intros min_bytes alignment blk_size tried p Hacc;
    cbn [upstream_loop]; [exact Hacc|].
  pose proof (loop_body_accounts min_bytes alignment blk_size tried p Hacc) as Hb.
  destruct (loop_body env min_bytes alignment blk_size tried p)
    as [[nb| |b t] p1]; cbn [fst snd] in *.
  - exact Hb.
  - exact Hb.
  - apply IH. exact Hb.
Qed.

Lemma get_upstream_block_accounts min_bytes alignment (p : pool FL) :
  accounts p -> accounts (snd (get_upstream_block env min_bytes alignment p)).
Proof.
  intros Hacc. unfold get_upstream_block.
  assert (Hn : accounts (snd (next_block_size min_bytes p))).
  { unfold next_block_size. destruct (size_of_float _); exact Hacc. }
  destruct (next_block_size min_bytes p) as [[blk|e| |] p1]; cbn [snd] in *;
    try exact Hn.
  pose proof (upstream_loop_accounts (loop_fuel blk) min_bytes alignment blk false
                                     p1 Hn) as Hl.
  destruct (upstream_loop env (loop_fuel blk) min_bytes alignment blk false p1)
    as [[[nb b']|e| |] p2]; cbn [fst snd] in *; try exact Hl.
  destruct (push_back_ok env (blocks_ p2)); cbn [snd]; intros b.
  - change (trace (set_blocks ?l ?x)) with (trace x).
    change (blocks_ (set_blocks ?l ?x)) with l.
    rewrite owned_snoc. apply Hl.
  - unfold upstream_deallocate. rewrite balance_emit, (Hl b).
    change (blocks_ (emit ?e p2)) with (blocks_ p2).
    unfold upstream_balance at 1. simpl. destruct (block_eqb _ b); lia.
Qed.

Lemma create_accounts (fl : FL) opt : accounts (create fl opt).
Proof. intros b. reflexivity. Qed.

(** X1.  The owned-blocks list is the ground truth for what is held from
    upstream: if every block is listed as often as it has been obtained and
    not yet given back, the same is true after [allocate] (however it ends:
    with a pointer, with [std::bad_alloc], after a reclaim pass, after a
    failed [push_back]), after [deallocate], [bulk_deallocate],
    [deallocate_no_sync], [try_allocate_from_free] and [flush_deferred]. *)
Theorem owned_blocks_account (p : pool FL) :
  accounts p ->
  (forall bytes alignment, accounts (snd (do_allocate env bytes alignment p)))
  /\ (forall min_bytes alignment,
        accounts (snd (get_upstream_block env min_bytes alignment p)))
  /\ (forall ptr bytes alignment, accounts (do_deallocate env ptr bytes alignment p))
  /\ (forall ptr bytes alignment, accounts (deallocate_no_sync ptr bytes alignment p))
  /\ (forall params, accounts (bulk_deallocate env params p))
  /\ (forall bytes alignment, accounts (snd (try_allocate_from_free bytes alignment p)))
  /\ accounts (flush_deferred env p).
Proof.
  intros Hacc.
  assert (Hget : forall bytes alignment,
             accounts (snd (free_list_get bytes alignment p))).
  { intros bytes alignment.
    apply (accounts_grows p); [apply free_list_get_grows | | exact Hacc].
    unfold free_list_get. destruct (fl_get _ _ _). reflexivity. }
  assert (Hput : forall ptr bytes (q : pool FL),
             accounts q -> accounts (free_list_put ptr bytes q)).
  { intros ptr bytes q Hq.
    apply (accounts_grows q); [apply free_list_put_grows | reflexivity | exact Hq]. }
  split.
  { intros bytes alignment. unfold do_allocate.
    destruct (bytes =? 0); [exact Hacc|].
    specialize (Hget bytes alignment).
    destruct (free_list_get bytes alignment p) as [q p1]. cbn [snd] in Hget.
    destruct (negb (q =? 0)); [exact Hget|].
    pose proof (get_upstream_block_accounts
                  bytes (N.max alignment (upstream_alignment (options_ p1))) p1 Hget)
      as Hup.
    destruct (get_upstream_block env bytes _ p1) as [[[nb b]|e| |] p2];
      cbn [snd] in *; try exact Hup.
    destruct (b =? bytes); cbn [snd]; [exact Hup | now apply Hput]. }
  split; [intros; now apply get_upstream_block_accounts|].
  split.
  { intros ptr bytes alignment. unfold do_deallocate, deallocate_no_sync.
    apply Hput.
    apply (accounts_grows p); [apply synchronize_grows | | exact Hacc].
    unfold synchronize. destruct (sync (options_ p)); try reflexivity.
    apply synchronize_all_devices_frame. }
  split; [intros; now apply Hput|].
  split.
  { intros params.
    apply (accounts_grows p); [apply bulk_deallocate_grows | | exact Hacc].
    apply bulk_deallocate_frame. }
  split.
  { intros bytes alignment. unfold try_allocate_from_free.
    destruct (bytes =? 0); [exact Hacc | apply Hget]. }
  apply (accounts_grows p); [apply flush_deferred_grows | | exact Hacc].
  apply flush_deferred_frame.
Qed.

(** *** [free_all] *)

Lemma release_all_blocks blocks :
  forall p : pool FL,
  let q := fold_left (fun q blk =>
                        upstream_deallocate (blk_ptr blk) (blk_bytes blk)
                                            (blk_alignment blk) q) blocks p in
  trace q = trace p ++ map deallocation blocks
  /\ blocks_ q = blocks_ p /\ free_list_ q = free_list_ p
  /\ next_block_size_ q = next_block_size_ p /\ options_ q = options_ p.
Proof.
  induction blocks as [|blk blocks IH]; intros p; simpl.
  - rewrite app_nil_r. auto.
  - destruct (IH (upstream_deallocate (blk_ptr blk) (blk_bytes blk)
                                      (blk_alignment blk) p))
      as (H1 & H2 & H3 & H4 & H5).
    rewrite H1, H2, H3, H4, H5. simpl. rewrite <- app_assoc. auto.
Qed.

Lemma balance_deallocations blocks b :
  upstream_balance (map deallocation blocks) b = (- owned blocks b)%Z.
Proof.
  induction blocks as [|x blocks IH] using rev_ind; [reflexivity|].
  rewrite map_app, upstream_balance_app, IH, owned_snoc.
  unfold upstream_balance. simpl. destruct x as [q n a]. simpl.
  destruct (block_eqb _ b); lia.
Qed.

(** X2.  [free_all] gives every owned block back to upstream, once each and
    in list order, and then clears the free list; afterwards the pool owns
    nothing, and if its list was the ground truth nothing is held from
    upstream any more. *)
Theorem free_all_releases_everything (p : pool FL) :
  accounts p ->
  trace (free_all p) = trace p ++ map deallocation (blocks_ p) ++ [EvFreeListClear]
  /\ blocks_ (free_all p) = []
  /\ free_list_ (free_all p) = fl_clear (free_list_ p)
  /\ next_block_size_ (free_all p) = next_block_size_ p
  /\ (forall b, upstream_balance (trace (free_all p)) b = 0%Z).
Proof.
  intros Hacc. unfold free_all.
  destruct (release_all_blocks (blocks_ p) p) as (H1 & H2 & H3 & H4 & H5).
  cbv zeta in *.
  set (q := fold_left _ (blocks_ p) p) in *.
  assert (Htr : trace (emit EvFreeListClear
                         (set_free_list (fl_clear (free_list_ q)) (set_blocks [] q)))
                = trace p ++ map deallocation (blocks_ p) ++ [EvFreeListClear]).
  { simpl. rewrite H1, <- app_assoc. reflexivity. }
  split; [exact Htr|].
  split; [reflexivity|].
  split; [simpl; now rewrite H3|].
  split; [exact H4|].
  intros b. rewrite Htr, !upstream_balance_app, balance_deallocations, (Hacc b).
  unfold upstream_balance at 1. simpl. lia.
Qed.

(** *** The release loop of the reclaim pass *)

Lemma kept_snoc blocks removed x (r : bool) :
  length blocks = length removed ->
  kept (blocks ++ [x]) (removed ++ [r])
  = kept blocks removed ++ (if r then [] else [x]).
Proof.
  intros Hlen. unfold kept. rewrite zip_with_app by exact Hlen.
  rewrite List.filter_app, map_app. simpl. destruct r; reflexivity.
Qed.

Lemma released_snoc blocks removed x (r : bool) :
  length blocks = length removed ->
  released (blocks ++ [x]) (removed ++ [r])
  = released blocks removed ++ (if r then [x] else []).
Proof.
  intros Hlen. unfold released. rewrite zip_with_app by exact Hlen.
  rewrite List.filter_app, map_app. simpl. destruct r; reflexivity.
Qed.

Lemma release_removed_exact i removed :
  forall p : pool FL,
  (i <= length (blocks_ p))%nat -> (i <= length removed)%nat ->
  blocks_ (release_removed i removed p)
  = kept (take i (blocks_ p)) (take i removed) ++ drop i (blocks_ p)
  /\ trace (release_removed i removed p)
     = trace p ++ map deallocation
                      (rev (released (take i (blocks_ p)) (take i removed))).
Proof.
  induction i as [|j IH]; intros p Hb Hr; cbn [release_removed].
  - rewrite !take_0, drop_0. simpl. now rewrite app_nil_r.
  - destruct (lookup_lt_is_Some_2 (blocks_ p) j ltac:(lia)) as [x Hx].
    destruct (lookup_lt_is_Some_2 removed j ltac:(lia)) as [r Hrj].
    rewrite Hx, Hrj.
    rewrite (take_S_r _ _ _ Hx), (take_S_r _ _ _ Hrj).
    assert (Hlen : length (take j (blocks_ p)) = length (take j removed)).
    { rewrite !length_take. lia. }
    rewrite kept_snoc, released_snoc by exact Hlen.
    destruct r.
    + match goal with |- context [release_removed j removed ?q] =>
        destruct (IH q) as [Hk Ht] end.
      { change (blocks_ (set_blocks ?l ?y)) with l.
        rewrite length_delete by eauto. lia. }
      { lia. }
      rewrite Hk, Ht.
      change (blocks_ (set_blocks ?l ?y)) with l.
      change (trace (set_blocks ?l ?y)) with (trace y).
      rewrite delete_take_drop.
      rewrite take_app_le by (rewrite length_take; lia).
      rewrite take_take, Nat.min_id.
      rewrite drop_app_length' by (rewrite length_take; lia).
      rewrite app_nil_r. split; [reflexivity|].
      unfold upstream_deallocate. simpl trace.
      rewrite rev_app_distr. simpl. rewrite <- app_assoc. reflexivity.
    + destruct (IH p ltac:(lia) ltac:(lia)) as [Hk Ht].
      rewrite Hk, Ht. rewrite app_nil_r.
      rewrite (drop_S _ _ _ Hx). rewrite <- app_assoc. auto.
Qed.

(** X3.  The release loop of the reclaim pass erases from the owned-blocks
    list exactly the blocks the scan has marked, keeps the others in their
    order, gives the marked ones back to upstream from the last to the
    first, and touches neither the free list nor the cursor. *)
Theorem reclaim_releases_marked_blocks removed (p : pool FL) :
  length removed = length (blocks_ p) ->
  let q := release_removed (length (blocks_ p)) removed p in
  blocks_ q = kept (blocks_ p) removed
  /\ trace q = trace p ++ map deallocation (rev (released (blocks_ p) removed))
  /\ free_list_ q = free_list_ p
  /\ next_block_size_ q = next_block_size_ p
  /\ (length (blocks_ q) + freed removed = length (blocks_ p))%nat.
Proof.
  intros Hlen q.
  destruct (release_removed_exact (length (blocks_ p)) removed p) as [Hk Ht];
    [lia | lia |].
  rewrite take_ge, drop_ge, app_nil_r in Hk by lia.
  rewrite take_ge in Hk by lia.
  rewrite !take_ge in Ht by lia.
  destruct (release_removed_frame (length (blocks_ p)) removed p) as (_ & Hn & Hf).
  pose proof (release_removed_length (length (blocks_ p)) removed p (le_n _)) as Hl.
  rewrite take_ge in Hl by lia.
  repeat split; assumption.
Qed.

(** *** Without [try_smaller_on_failure] *)

Lemma next_block_size_frame upcoming (p : pool FL) blk p1 :
  next_block_size upcoming p = (Returns blk, p1) ->
  p1 = set_next_block_size (N.min blk (max_block_size (options_ p))) p.
Proof.
  unfold next_block_size. destruct (size_of_float _); [|discriminate].
  now intros [= <- <-].
Qed.

(** X4.  With [try_smaller_on_failure] off, one refused request ends
    [get_upstream_block]: it throws [std::bad_alloc] after a single call to
    upstream and the flush, makes no retry and no reclaim pass (whatever
    [return_to_upstream_on_failure] says), leaves the owned-blocks list
    alone, and leaves the cursor at the grown size it had just computed. *)
Theorem single_attempt_without_try_smaller min_bytes alignment (p : pool FL) blk p1 :
  try_smaller_on_failure (options_ p) = false ->
  next_block_size min_bytes p = (Returns blk, p1) ->
  upstream_allocate env (trace p1) blk alignment = None ->
  let q := flush_deferred env (emit (EvUpstreamAllocate blk alignment None) p1) in
  get_upstream_block env min_bytes alignment p = (Throws bad_alloc, q)
  /\ blocks_ q = blocks_ p
  /\ next_block_size_ q = N.min blk (max_block_size (options_ p))
  /\ scans (trace q) = scans (trace p)
  /\ (forall b, upstream_balance (trace q) b = upstream_balance (trace p) b).
Proof.
  intros Hts Hnext Hup q.
  pose proof (next_block_size_frame _ _ _ _ Hnext) as Hp1.
  destruct (flush_deferred_frame env (emit (EvUpstreamAllocate blk alignment None) p1))
    as (Hopt & Hblk & Hcur).
  fold q in Hopt, Hblk, Hcur.
  assert (Hbody : loop_body env min_bytes alignment blk false p1 = (Rethrow, q)).
  { unfold loop_body. rewrite Hup. fold q. rewrite Hopt.
    change (options_ (emit ?e p1)) with (options_ p1).
    rewrite Hp1. change (options_ (set_next_block_size ?n p)) with (options_ p).
    rewrite Hts. reflexivity. }
  split.
  { unfold get_upstream_block. rewrite Hnext.
    unfold loop_fuel. rewrite Nat.add_comm. cbn [Nat.add upstream_loop].
    rewrite Hbody. reflexivity. }
  split; [rewrite Hblk, Hp1; reflexivity|].
  split; [rewrite Hcur, Hp1; reflexivity|].
  split.
  { unfold q. rewrite flush_deferred_scans, scans_emit, Hp1. simpl. lia. }
  intros b.
  rewrite (balance_grows (emit (EvUpstreamAllocate blk alignment None) p1) q b)
    by apply flush_deferred_grows.
  rewrite balance_emit, Hp1. unfold upstream_balance at 2. simpl. lia.
Qed.

(** *** The sizes asked from upstream *)

Lemma release_removed_grows (P : event -> Prop) i removed :
  (forall b, P (deallocation b)) ->
  forall p : pool FL, grows_by P p (release_removed i removed p).
Proof.
  intros HP. induction i as [|j IH]; intros p; cbn [release_removed];
    [apply grows_refl|].
  eapply grows_trans; [|apply IH].
  destruct (removed !! j) as [[|]|]; destruct (blocks_ p !! j) as [blk|];
    try apply grows_refl.
  exists [deallocation blk]. split; [reflexivity | repeat constructor; apply HP].
Qed.

Lemma local_request_within lo hi a e : local e -> request_within lo hi a e.
Proof. destruct e; try discriminate; intros _; exact I. Qed.

Lemma loop_body_requests min_bytes alignment blk_size tried (p : pool FL) hi :
  min_bytes <= blk_size <= hi ->
  grows_by (request_within min_bytes hi alignment) p
           (snd (loop_body env min_bytes alignment blk_size tried p)).
Proof.
  intros Hrange. unfold loop_body.
  set (r := upstream_allocate env (trace p) blk_size alignment).
  set (p1 := emit (EvUpstreamAllocate blk_size alignment r) p).
  assert (H1 : grows_by (request_within min_bytes hi alignment) p p1).
  { apply grows_emit. simpl. split; [exact Hrange | reflexivity]. }
  destruct r as [nb|]; [exact H1|].
  assert (H2 : grows_by (request_within min_bytes hi alignment) p
                        (flush_deferred env p1)).
  { eapply grows_trans; [exact H1|].
    eapply grows_weaken; [apply local_request_within | apply flush_deferred_grows]. }
  set (p2 := flush_deferred env p1) in *.
  destruct (negb (try_smaller_on_failure (options_ p2))); [exact H2|].
  destruct (blk_size =? min_bytes); [|exact H2].
  destruct (tried || _); [exact H2|].
  destruct (blocks_ p2) as [|b0 bs] eqn:Hbs; [exact H2|].
  pose proof (scan_blocks_grows (b0 :: bs) p2) as Hg.
  destruct (scan_blocks (b0 :: bs) p2) as [[removed n] p3]. cbn [snd] in *.
  assert (H3 : grows_by (request_within min_bytes hi alignment) p p3).
  { eapply grows_trans; [exact H2|].
    eapply grows_weaken; [apply local_request_within | exact Hg]. }
  destruct (n =? 0)%Z; [exact H3|].
  unfold shrink. cbn [snd].
  eapply grows_trans; [exact H3|].
  apply (release_removed_grows _ (length (blocks_ p3)) removed).
  intros b. exact I.
Qed.

Lemma upstream_loop_requests fuel :
  forall min_bytes alignment blk_size tried (p : pool FL) hi,
  min_bytes <= blk_size <= hi ->
  grows_by (request_within min_bytes hi alignment) p
           (snd (upstream_loop env fuel min_bytes alignment blk_size tried p))
  /\ forall new_block b,
       fst (upstream_loop env fuel min_bytes alignment blk_size tried p)
       = Returns (new_block, b) ->
       min_bytes <= b <= hi.
Proof.
  induction fuel as [|fuel IH]; intros min_bytes alignment blk_size tried p hi Hr;
    cbn [upstream_loop].
  - split; [apply grows_refl | discriminate].
  - pose proof (loop_body_requests min_bytes alignment blk_size tried p hi Hr) as Hg.
    pose proof (loop_body_classified env min_bytes alignment blk_size tried p) as Hc.
    destruct (loop_body env min_bytes alignment blk_size tried p)
      as [[nb| |b t] p1]; cbn [fst snd] in *.
    + split; [exact Hg|]. intros nb' b' Heq. inversion Heq; subst. exact Hr.
    + split; [exact Hg | discriminate].
    + assert (Hb : min_bytes <= b <= hi).
      { destruct Hc as [Hmin [(_ & Hlt & _)|[(_ & -> & _)|(Hlt & _)]]]; lia. }
      destruct (IH min_bytes alignment b t p1 hi Hb) as [Hg' Hret].
      split; [eapply grows_trans; eassumption | exact Hret].
Qed.

(** X5.  When the first size [next_block_size] gives is at least the
    request, every size [get_upstream_block] asks from upstream lies between
    the request and that first size and carries the alignment it was called
    with; the block it returns has such a size too, and it is the block
    added at the end of the owned-blocks list. *)
Theorem requests_between_need_and_first_size min_bytes alignment (p : pool FL)
        blk p1 new_block b p2 :
  next_block_size min_bytes p = (Returns blk, p1) ->
  min_bytes <= blk ->
  get_upstream_block env min_bytes alignment p = (Returns (new_block, b), p2) ->
  min_bytes <= b <= blk
  /\ grows_by (request_within min_bytes blk alignment) p p2
  /\ exists blocks,
       blocks_ p2 = blocks ++ [{| blk_ptr := new_block; blk_bytes := b;
                                  blk_alignment := alignment |}].
Proof.
  intros Hnext Hle. unfold get_upstream_block. rewrite Hnext.
  destruct (upstream_loop_requests (loop_fuel blk) min_bytes alignment blk false p1
                                   blk ltac:(lia)) as [Hg Hret].
  destruct (upstream_loop env (loop_fuel blk) min_bytes alignment blk false p1)
    as [[[nb b']|e| |] q]; try discriminate.
  cbn [fst snd] in *.
  destruct (push_back_ok env (blocks_ q)); [|discriminate].
  intros [= <- <- <-].
  split; [now apply (Hret nb)|].
  split; [|eexists; reflexivity].
  rewrite (next_block_size_frame _ _ _ _ Hnext) in Hg.
  exact Hg.
Qed.

(** *** The cursor after an acquisition *)

Lemma loop_fuel_S blk : loop_fuel blk = S (N.to_nat (N.log2 blk) + 3).
Proof. unfold loop_fuel. lia. Qed.

Lemma upstream_loop_S fuel min_bytes alignment blk_size tried (p : pool FL) :
  upstream_loop env (S fuel) min_bytes alignment blk_size tried p
  = match loop_body env min_bytes alignment blk_size tried p with
    | (Allocated new_block, p1) => (Returns (new_block, blk_size), p1)
    | (Rethrow, p1) => (Throws bad_alloc, p1)
    | (Retry blk_size' tried', p1) =>
        upstream_loop env fuel min_bytes alignment blk_size' tried' p1
    end.
Proof. reflexivity. Qed.

Lemma upstream_loop_pinned fuel :
  forall min_bytes alignment blk_size tried (p : pool FL) new_block b p2,
  next_block_size_ p = blk_size ->
  upstream_loop env fuel min_bytes alignment blk_size tried p
  = (Returns (new_block, b), p2) ->
  next_block_size_ p2 = b.
Proof.
  induction fuel as [|fuel IH];
    intros min_bytes alignment blk_size tried p new_block b p2 Hpin;
    cbn [upstream_loop]; [discriminate|].
  destruct (loop_body env min_bytes alignment blk_size tried p)
    as [[nb| |b' t] p1] eqn:Hbody.
  - pose proof (loop_body_classified env min_bytes alignment blk_size tried p) as Hc.
    rewrite Hbody in Hc. cbn [fst] in Hc.
    rewrite (loop_body_success env _ _ _ _ _ _ Hc) in Hbody.
    injection Hbody as <-. intros [= _ <- <-]. exact Hpin.
  - discriminate.
  - apply loop_body_retry in Hbody. destruct Hbody as (_ & _ & _ & Hcur & _).
    now apply IH.
Qed.

(** X6.  After [get_upstream_block] has returned a block, the cursor
    [next_block_size_] is the grown size capped at [max_block_size] if the
    first request was granted, and the size of the returned block if any
    request was refused on the way. *)
Theorem cursor_after_acquisition min_bytes alignment (p : pool FL)
        blk p1 new_block b p2 :
  next_block_size min_bytes p = (Returns blk, p1) ->
  get_upstream_block env min_bytes alignment p = (Returns (new_block, b), p2) ->
  next_block_size_ p2
  = match upstream_allocate env (trace p1) blk alignment with
    | Some _ => N.min blk (max_block_size (options_ p))
    | None => b
    end.
Proof.
  intros Hnext. unfold get_upstream_block. rewrite Hnext.
  pose proof (next_block_size_frame _ _ _ _ Hnext) as Hp1.
  destruct (upstream_loop env (loop_fuel blk) min_bytes alignment blk false p1)
    as [[[nb b']|e| |] q] eqn:Hloop; try discriminate.
  destruct (push_back_ok env (blocks_ q)); [|discriminate].
  intros [= <- <- <-].
  change (next_block_size_ (set_blocks ?l q)) with (next_block_size_ q).
  revert Hloop. rewrite loop_fuel_S, upstream_loop_S.
  destruct (upstream_allocate env (trace p1) blk alignment) as [x|] eqn:Hup.
  - rewrite (loop_body_success env _ _ _ _ _ _ Hup). intros [= _ _ <-].
    rewrite Hp1. reflexivity.
  - destruct (loop_body env min_bytes alignment blk false p1)
      as [[y| |b1 t] q1] eqn:Hbody.
    + pose proof (loop_body_classified env min_bytes alignment blk false p1) as Hc.
      rewrite Hbody in Hc. cbn [fst] in Hc. rewrite Hup in Hc. discriminate Hc.
    + discriminate.
    + apply loop_body_retry in Hbody. destruct Hbody as (_ & _ & _ & Hcur & _).
      intros Hloop. eapply upstream_loop_pinned; eassumption.
Qed.

(** *** Allocation from the free list *)

(** *** [bulk_deallocate] *)

Lemma synchronize_fold_syncs params :
  forall st : Z * list Z * pool FL,
  grows_by (fun e => exists d, e = EvDeviceSynchronize d) (snd st)
           (snd (fold_left (synchronize_step env) params st)).
Proof.
  induction params as [|par params IH]; intros st; simpl; [apply grows_refl|].
  eapply grows_trans; [|apply IH].
  destruct st as [[prev mask] p]. unfold synchronize_step.
  repeat match goal with |- context [if ?c then _ else _] => destruct c end;
    cbn [snd]; (apply grows_refl || (apply grows_emit; eexists; reflexivity)).
Qed.

Lemma synchronize_span_syncs params (p : pool FL) :
  exists devs,
    trace (synchronize_span env params p) = trace p ++ map EvDeviceSynchronize devs.
Proof.
  assert (Hg : grows_by (fun e => exists d, e = EvDeviceSynchronize d) p
                        (synchronize_span env params p)).
  { unfold synchronize_span. destruct (sync (options_ p)).
    - apply grows_refl.
    - apply (synchronize_fold_syncs params (_, _, p)).
    - unfold synchronize_all_devices. apply fold_left_grows.
      intros a b. apply grows_emit. eexists; reflexivity. }
  destruct Hg as (tl & Htl & Hall). rewrite Htl. clear Htl.
  induction Hall as [|e tl [d ->] _ [devs IH]].
  - exists []. reflexivity.
  - exists (d :: devs). simpl. apply app_inv_head in IH. now rewrite IH.
Qed.

Lemma put_all params :
  forall p : pool FL,
  let q := fold_left (fun q par => free_list_put (ptr par) (bytes par) q) params p in
  trace q = trace p ++ map (fun par => EvFreeListPut (ptr par) (bytes par)) params
  /\ free_list_ q
     = fold_left (fun fl par => fl_put (ptr par) (bytes par) fl) params (free_list_ p).
Proof.
  induction params as [|par params IH]; intros p; simpl.
  - now rewrite app_nil_r.
  - destruct (IH (free_list_put (ptr par) (bytes par) p)) as [H1 H2].
    rewrite H1, H2. simpl. now rewrite <- app_assoc.
Qed.

(** X7.  [bulk_deallocate] of an empty batch does nothing at all, whatever
    the scope.  Otherwise it synchronises first and then puts every region
    of the batch in the free list, in the order of the batch: no put comes
    before a synchronisation; it calls neither upstream nor the free list's
    [get], and leaves the owned-blocks list and the cursor alone.  With
    scope [none] it is the same as calling [deallocate] on each entry in
    turn. *)
Theorem bulk_deallocate_synchronizes_then_puts params (p : pool FL) :
  bulk_deallocate env [] p = p
  /\ (exists devs,
        trace (bulk_deallocate env params p)
        = trace p ++ map EvDeviceSynchronize devs
                  ++ map (fun par => EvFreeListPut (ptr par) (bytes par)) params)
  /\ free_list_ (bulk_deallocate env params p)
     = fold_left (fun fl par => fl_put (ptr par) (bytes par) fl) params (free_list_ p)
  /\ blocks_ (bulk_deallocate env params p) = blocks_ p
  /\ next_block_size_ (bulk_deallocate env params p) = next_block_size_ p
  /\ (sync (options_ p) = scope_none ->
      bulk_deallocate env params p
      = fold_left (fun q par =>
                     do_deallocate env (ptr par) (bytes par) (alignment par) q)
                  params p).
Proof.
  split; [reflexivity|].
  destruct (bulk_deallocate_frame env params p) as (_ & Hb & Hc).
  assert (Hshape :
    (exists devs,
        trace (bulk_deallocate env params p)
        = trace p ++ map EvDeviceSynchronize devs
                  ++ map (fun par => EvFreeListPut (ptr par) (bytes par)) params)
    /\ free_list_ (bulk_deallocate env params p)
       = fold_left (fun fl par => fl_put (ptr par) (bytes par) fl) params
                   (free_list_ p)).
  { unfold bulk_deallocate. destruct params as [|par params].
    - split; [exists []; simpl; now rewrite app_nil_r | reflexivity].
    - destruct (put_all (par :: params) (synchronize_span env (par :: params) p))
        as [H1 H2]. cbv zeta in H1, H2.
      destruct (synchronize_span_syncs (par :: params) p) as [devs Hd].
      destruct (synchronize_span_frame env (par :: params) p) as (_ & _ & _ & Hf).
      split.
      + exists devs. rewrite H1, Hd, <- app_assoc. reflexivity.
      + rewrite H2, Hf. reflexivity. }
  destruct Hshape as [Htr Hfl].
  repeat split; try assumption.
  intros Hnone. unfold bulk_deallocate.
  assert (Hdealloc : forall ps (q : pool FL),
             sync (options_ q) = scope_none ->
             fold_left (fun q par => free_list_put (ptr par) (bytes par) q) ps q
             = fold_left (fun q par =>
                            do_deallocate env (ptr par) (bytes par) (alignment par) q)
                         ps q).
  { induction ps as [|par ps IH]; intros q Hq; simpl; [reflexivity|].
    unfold do_deallocate at 2, deallocate_no_sync, synchronize. rewrite Hq.
    apply IH. exact Hq. }
  destruct params as [|par params]; [reflexivity|].
  unfold synchronize_span. rewrite Hnone. now apply Hdealloc.
Qed.

(** *** Which devices a batch synchronises *)

Lemma synchronize_all_devices_trace (p : pool FL) :
  trace (synchronize_all_devices env p)
  = trace p ++ map EvDeviceSynchronize (map Z.of_nat (seq 0 (device_count env))).
Proof.
  unfold synchronize_all_devices. generalize (seq 0 (device_count env)).
  intros l. revert p. induction l as [|i l IH]; intros p; simpl.
  - now rewrite app_nil_r.
  - rewrite IH. simpl. now rewrite <- app_assoc.
Qed.

Lemma device_syncs_app tr1 tr2 :
  device_syncs (tr1 ++ tr2) = device_syncs tr1 ++ device_syncs tr2.
Proof. unfold device_syncs. apply flat_map_app. Qed.

Lemma device_syncs_syncs devs : device_syncs (map EvDeviceSynchronize devs) = devs.
Proof. induction devs as [|d devs IH]; simpl; [reflexivity | now rewrite IH]. Qed.

Lemma device_syncs_puts (params : list dealloc_params) :
  device_syncs (map (fun par => EvFreeListPut (ptr par) (bytes par)) params) = [].
Proof. induction params as [|par params IH]; simpl; [reflexivity | exact IH]. Qed.

(** X8.  With scope [system] every device of the machine is synchronised,
    from device 0 up, once each: by [synchronize()], by
    [synchronize(span)] whatever the batch holds, and so by a non-empty
    [bulk_deallocate] however many entries it has. *)
Theorem system_scope_synchronizes_every_device params (p : pool FL) :
  sync (options_ p) = scope_system ->
  let all := map Z.of_nat (seq 0 (device_count env)) in
  trace (synchronize env p) = trace p ++ map EvDeviceSynchronize all
  /\ trace (synchronize_span env params p) = trace p ++ map EvDeviceSynchronize all
  /\ (params <> [] ->
      device_syncs (trace (bulk_deallocate env params p))
      = device_syncs (trace p) ++ all).
Proof.
  intros Hsys all.
  assert (Hspan : trace (synchronize_span env params p)
                  = trace p ++ map EvDeviceSynchronize all).
  { unfold synchronize_span. rewrite Hsys. apply synchronize_all_devices_trace. }
  split.
  { unfold synchronize. rewrite Hsys. apply synchronize_all_devices_trace. }
  split; [exact Hspan|].
  intros Hne. unfold bulk_deallocate.
  destruct params as [|par params]; [contradiction|].
  destruct (put_all (par :: params) (synchronize_span env (par :: params) p))
    as [H1 _]. cbv zeta in H1.
  rewrite H1, Hspan, !device_syncs_app, device_syncs_syncs, device_syncs_puts.
  now rewrite app_nil_r.
Qed.

Lemma synchronized_covers limit devs d :
  In d devs ->
  forall seen prev,
  In d (Spec.synchronized limit seen prev devs) \/ In d seen \/ d = prev.
Proof.
  induction devs as [|h devs IH]; intros Hin seen prev; [contradiction|].
  simpl. destruct (Z.ltb_spec h limit) as [Hh|Hh].
  - destruct (existsb (Z.eqb h) seen) eqn:Hseen.
    + destruct Hin as [->|Hin]; [|now apply IH].
      right; left. now apply existsb_eqb_In.
    + destruct Hin as [->|Hin]; [left; now left|].
      destruct (IH Hin (h :: seen) h) as [H|[[->|H]| -> ]].
      * left; now right.
      * left; now left.
      * right; now left.
      * left; now left.
  - destruct (Z.eqb_spec h prev) as [->|Hne].
    + destruct Hin as [->|Hin]; [right; now right | now apply IH].
    + destruct Hin as [->|Hin]; [left; now left|].
      destruct (IH Hin seen h) as [H|[H| -> ]].
      * left; now right.
      * right; now left.
      * left; now left.
Qed.

Lemma synchronized_sound limit devs :
  forall seen prev d,
  In d (Spec.synchronized limit seen prev devs) -> In d devs.
Proof.
  induction devs as [|h devs IH]; intros seen prev d; simpl; [tauto|].
  destruct (h <? limit)%Z.
  - destruct (existsb (Z.eqb h) seen).
    + intros H. right. eapply IH; exact H.
    + intros [->|H]; [now left | right; eapply IH; exact H].
  - destruct (h =? prev)%Z.
    + intros H. right. eapply IH; exact H.
    + intros [->|H]; [now left | right; eapply IH; exact H].
Qed.

Lemma synchronized_length limit devs :
  forall seen prev,
  (length (Spec.synchronized limit seen prev devs) <= length devs)%nat.
Proof.
  induction devs as [|h devs IH]; intros seen prev; simpl; [lia|].
  destruct (h <? limit)%Z.
  - destruct (existsb (Z.eqb h) seen); simpl.
    + specialize (IH seen prev). lia.
    + specialize (IH (h :: seen) h). lia.
  - destruct (h =? prev)%Z; simpl.
    + specialize (IH seen prev). lia.
    + specialize (IH seen h). lia.
Qed.

(** X9.  With scope [device], a non-empty [bulk_deallocate] synchronises,
    before its first put, every device an entry of the batch refers to (the
    current device for entries without one), also when device ids of 256 or
    more are involved; it synchronises no other device, and makes at most
    as many synchronisations as the batch has entries. *)
Theorem device_scope_covers_the_batch params (p : pool FL) :
  (0 <= current_device env)%Z ->
  sync (options_ p) = scope_device ->
  params <> [] ->
  exists synced,
    trace (bulk_deallocate env params p)
    = trace p ++ map EvDeviceSynchronize synced
              ++ map (fun par => EvFreeListPut (ptr par) (bytes par)) params
    /\ (forall par, In par params ->
          In (resolve (current_device env) (sync_device par)) synced)
    /\ (forall d, In d synced ->
          exists par, In par params
                      /\ d = resolve (current_device env) (sync_device par))
    /\ (length synced <= length params)%nat.
Proof.
  intros Hc Hdev Hne.
  set (devs := map (resolve (current_device env)) (map sync_device params)).
  exists (Spec.synchronized kMaxDevices [] (-1) devs).
  split.
  { unfold bulk_deallocate. destruct params as [|par params]; [contradiction|].
    destruct (put_all (par :: params) (synchronize_span env (par :: params) p))
      as [H1 _]. cbv zeta in H1. rewrite H1.
    assert (Hs : trace (synchronize_span env (par :: params) p)
                 = trace p ++ map EvDeviceSynchronize
                                  (Spec.synchronized kMaxDevices [] (-1) devs)).
    { unfold synchronize_span. rewrite Hdev.
      apply (synchronize_fold_policy env (par :: params) (-1) _ [] p Hc
                                     represents_empty). }
    rewrite Hs. now rewrite <- app_assoc. }
  split.
  { intros par Hin.
    assert (Hd : In (resolve (current_device env) (sync_device par)) devs).
    { unfold devs. rewrite map_map. apply in_map_iff. exists par. auto. }
    destruct (synchronized_covers kMaxDevices devs _ Hd [] (-1)) as [H|[[]|H]];
      [exact H|].
    pose proof (resolve_nonneg env (sync_device par) Hc). lia. }
  split.
  { intros d Hd. apply synchronized_sound in Hd. unfold devs in Hd.
    rewrite map_map in Hd. apply in_map_iff in Hd.
    destruct Hd as (par & <- & Hin). exists par. auto. }
  pose proof (synchronized_length kMaxDevices devs [] (-1)) as Hl.
  unfold devs in Hl. rewrite !length_map in Hl. exact Hl.
Qed.

(** *** How much a block is padded *)

Lemma block_alignment_bound actual :
  Spec.block_alignment actual <= N.max 4096 (actual / 1024)
  /\ exists m, Spec.block_alignment actual = 4096 * m.
Proof.
  unfold Spec.block_alignment.
  destruct (N.le_gt_cases (N.log2 actual - 10) 12) as [Hs|Hl].
  - replace (N.max (N.log2 actual - 10) 12) with 12 by lia.
    change (2 ^ 12) with 4096. split; [lia | exists 1; reflexivity].
  - replace (N.max (N.log2 actual - 10) 12) with (N.log2 actual - 10) by lia.
    assert (Hpos : 0 < actual).
    { destruct actual; [simpl in Hl; lia | lia]. }
    destruct (N.log2_spec actual Hpos) as [Hlow _].
    replace (N.log2 actual) with ((N.log2 actual - 10) + 10) in Hlow by lia.
    rewrite N.pow_add_r in Hlow. change (2 ^ 10) with 1024 in Hlow.
    split.
    + assert (2 ^ (N.log2 actual - 10) <= actual / 1024).
      { apply N.div_le_lower_bound; lia. }
      lia.
    + exists (2 ^ (N.log2 actual - 22)).
      change 4096 with (2 ^ 12). rewrite <- N.pow_add_r. f_equal. lia.
Qed.

(** X10.  The block asked from upstream is padded by less than a page or a
    1024th of its unpadded size, whichever is larger: with
    [actual = max(request, next_block_size_ * growth_factor)] at most
    [2 ^ 63], [next_block_size] returns a multiple of 4096 that is at least
    [actual] and less than [actual + max(4096, actual / 1024)].  The cursor
    it stores never exceeds [max_block_size] nor the size it returns, and
    nothing else of the pool changes. *)
Theorem block_padding_is_bounded upcoming (p p1 : pool FL) grown blk :
  size_of_float (fmul (float_of_size (next_block_size_ p))
                      (growth_factor (options_ p))) = Some grown ->
  N.max upcoming grown <= 2 ^ 63 ->
  next_block_size upcoming p = (Returns blk, p1) ->
  let actual := N.max upcoming grown in
  actual <= blk < actual + N.max 4096 (actual / 1024)
  /\ blk mod 4096 = 0
  /\ next_block_size_ p1 = N.min blk (max_block_size (options_ p))
  /\ p1 = set_next_block_size (next_block_size_ p1) p.
Proof.
  intros Hprod Hsmall Hnext actual.
  assert (Hup : upcoming < size_max).
  { unfold size_max. change (2 ^ 64) with (2 * 2 ^ 63). lia. }
  destruct (block_alignment_bound actual) as [Hbound [m Hm]].
  destruct (align_to_least actual (Spec.block_alignment actual) (pow2_pos _))
    as (Hle & Hlt & _ & _).
  assert (Hfit : fst (Spec.next_block_size upcoming grown
                                           (max_block_size (options_ p))) < size_max).
  { unfold Spec.next_block_size. cbn [fst]. fold actual.
    assert (actual / 1024 <= actual) by (apply N.Div0.div_le_upper_bound; lia).
    unfold size_max. change (2 ^ 64) with (2 * 2 ^ 63).
    assert (4096 < 2 ^ 63) by reflexivity. lia. }
  rewrite next_block_size_eq in Hnext by exact Hup. rewrite Hprod in Hnext.
  cbv zeta in Hnext. rewrite wrap64_small in Hnext by exact Hfit.
  unfold Spec.next_block_size in Hnext. cbn [fst] in Hnext. fold actual in Hnext.
  injection Hnext as <- <-.
  split; [lia|]. split.
  { unfold Spec.align_to. rewrite Hm. rewrite <- N.mul_assoc, N.mul_comm.
    apply N.Div0.mod_mul. }
  split; reflexivity.
Qed.

End Facts.

#[local] Existing Instance coalescing_free_list.ops.

(** A fresh host pool accounts for its blocks, and still does after
    [allocate(100)]. *)
Lemma owned_blocks_account_witness :
  accounts (snd (do_allocate Runs.roomy 100 4 Mock.host_pool)).
Proof.
  destruct (owned_blocks_account Runs.roomy Mock.host_pool) as [H _].
  - intros b. reflexivity.
  - apply H.
Defined.

(** The pool with one block of 8 KiB gives it back. *)
Lemma free_all_releases_everything_witness :
  trace (free_all Samples.one_block)
  = trace Samples.one_block
    ++ [EvUpstreamDeallocate 65536 8192 256; EvFreeListClear].
Proof.
  destruct (free_all_releases_everything Samples.one_block) as [H _].
  - apply get_upstream_block_accounts. intros b. reflexivity.
  - exact H.
Defined.

(** The one block of the pool, marked by the scan, is erased. *)
Lemma reclaim_releases_marked_blocks_witness :
  blocks_ (release_removed 1 [true] Runs.one_free_block) = [].
Proof.
  destruct (reclaim_releases_marked_blocks [true] Runs.one_free_block) as [H _].
  - reflexivity.
  - exact H.
Defined.

(** 8 KiB refused by an upstream that has 4 KiB: [std::bad_alloc], with no
    second request. *)
Lemma single_attempt_without_try_smaller_witness :
  fst (get_upstream_block Samples.scarce 100 256 Samples.rigid_pool)
  = Throws bad_alloc
  /\ Runs.upstream_calls
       (trace (snd (get_upstream_block Samples.scarce 100 256 Samples.rigid_pool)))
     = [EvUpstreamAllocate 8192 256 None].
Proof.
  destruct (single_attempt_without_try_smaller
              Samples.scarce 100 256 Samples.rigid_pool 8192
              (set_next_block_size 8192 Samples.rigid_pool)) as [H _].
  - reflexivity.
  - reflexivity.
  - reflexivity.
  - rewrite H. split; reflexivity.
Defined.

(** 8 KiB refused, 4 KiB granted: the block returned has 4 KiB. *)
Lemma requests_between_need_and_first_size_witness :
  100 <= 4096 <= 8192
  /\ grows_by (request_within 100 8192 256) Mock.host_pool
              (snd (get_upstream_block Samples.scarce 100 256 Mock.host_pool)).
Proof.
  destruct (requests_between_need_and_first_size
              Samples.scarce 100 256 Mock.host_pool 8192
              (set_next_block_size 8192 Mock.host_pool) 65536 4096
              (snd (get_upstream_block Samples.scarce 100 256 Mock.host_pool)))
    as (H1 & H2 & _).
  - reflexivity.
  - apply N.leb_le. reflexivity.
  - reflexivity.
  - split; [exact H1 | exact H2].
Defined.

(** 8 KiB refused, 4 KiB granted: the cursor is left at 4 KiB. *)
Lemma cursor_after_acquisition_witness :
  next_block_size_ (snd (get_upstream_block Samples.scarce 100 256 Mock.host_pool))
  = 4096.
Proof.
  apply (cursor_after_acquisition
           Samples.scarce 100 256 Mock.host_pool 8192
           (set_next_block_size 8192 Mock.host_pool) 65536 4096
           (snd (get_upstream_block Samples.scarce 100 256 Mock.host_pool)));
    reflexivity.
Defined.

(** Two devices, both synchronised. *)
Lemma system_scope_synchronizes_every_device_witness :
  trace (synchronize Runs.roomy Samples.system_pool)
  = trace Samples.system_pool ++ [EvDeviceSynchronize 0; EvDeviceSynchronize 1].
Proof.
  destruct (system_scope_synchronizes_every_device
              Runs.roomy [] Samples.system_pool) as [H _].
  - reflexivity.
  - exact H.
Defined.

(** A batch on devices 300, current, 300 and 1. *)
Lemma device_scope_covers_the_batch_witness :
  exists synced,
    trace (bulk_deallocate Runs.roomy
             [Mock.on_device 300; Mock.on_device (-1); Mock.on_device 300;
              Mock.on_device 1] Mock.device_pool)
    = trace Mock.device_pool ++ map EvDeviceSynchronize synced
        ++ map (fun par => EvFreeListPut (ptr par) (bytes par))
               [Mock.on_device 300; Mock.on_device (-1); Mock.on_device 300;
                Mock.on_device 1]
    /\ (length synced <= 4)%nat.
Proof.
  destruct (device_scope_covers_the_batch
              Runs.roomy
              [Mock.on_device 300; Mock.on_device (-1); Mock.on_device 300;
               Mock.on_device 1] Mock.device_pool) as (synced & H1 & _ & _ & H2).
  - apply Z.leb_le. reflexivity.
  - reflexivity.
  - discriminate.
  - exists synced. split; [exact H1 | exact H2].
Defined.

(** A request of ten million bytes is padded to the next multiple of
    8 KiB. *)
Lemma block_padding_is_bounded_witness :
  10000000 <= 10002432 < 10000000 + N.max 4096 (10000000 / 1024)
  /\ 10002432 mod 4096 = 0
  /\ next_block_size_ (snd (next_block_size 10000000 Mock.host_pool))
     = N.min 10002432 (max_block_size default_host_pool_opts).
Proof.
  destruct (block_padding_is_bounded
              10000000 Mock.host_pool
              (snd (next_block_size 10000000 Mock.host_pool)) 8192 10002432)
    as (H1 & H2 & H3 & _).
  - reflexivity.
  - apply N.leb_le. reflexivity.
  - reflexivity.
  - split; [exact H1|]. split; [exact H2 | exact H3].
Defined.

End PoolFacts.

(** ** The deferred deallocations on their way to the pool *)

Module HandoverFacts.
Import deferred_dealloc_pool Handover.
Local Open Scope Z_scope.

Lemma do_allocate_moves_client opt s s' :
  do_allocate opt s = Some s' -> exists c, s' = set_client c s.
Proof.
  unfold do_allocate, flush_deferred. intros H.
  destruct (client s) as [| |f k| |]; [| |destruct f| |]; step_cases;
    eexists; reflexivity.
Qed.

Lemma client_step opt a s s' :
  match a with
  | ActEnqueue _ | ActStop | ActWorker => False
  | _ => True
  end ->
  step opt a s = Some s' -> exists c, s' = set_client c s.
Proof.
  intros Ha Hstep. destruct a; try contradiction; cbn in Hstep.
  - destruct (client s); step_cases; eexists; reflexivity.
  - destruct (client s); step_cases; eexists; reflexivity.
  - eapply do_allocate_moves_client. exact Hstep.
  - destruct (client s); step_cases; eexists; reflexivity.
Qed.

Lemma step_handover opt a s s' :
  well_formed s ->
  step opt a s = Some s' ->
  well_formed s'
  /\ concat (returned_to_pool s') ++ pending s'
     = concat (returned_to_pool s) ++ pending s ++ enqueued [a].
Proof.
  intros Hwf Hstep.
  assert (Hclient : (exists c, s' = set_client c s) ->
                    match a with
                    | ActEnqueue _ | ActStop | ActWorker => False
                    | _ => True
                    end ->
                    well_formed s'
                    /\ concat (returned_to_pool s') ++ pending s'
                       = concat (returned_to_pool s) ++ pending s ++ enqueued [a]).
  { intros [c ->] Ha. split; [exact Hwf|].
    destruct a; try contradiction; cbn; now rewrite app_nil_r. }
  destruct a;
    try (apply Hclient; [eapply client_step; [|exact Hstep] |]; exact I).
  all: clear Hclient.
  all: destruct Hwf as (Hlen & Hidx & Hst & Hq).
  all: destruct s as [d idx st sp mtx w c ret]; simpl in *.
  all: destruct d as [|q0 [|q1 [|? ?]]]; try discriminate Hlen; clear Hlen.
  all: assert (Hst' : st = match w with WNotStarted => false | _ => true end)
    by (destruct w, st; try reflexivity;
        try (destruct Hst as [Hst _]; specialize (Hst eq_refl); discriminate Hst);
        try (destruct Hst as [_ Hst]; specialize (Hst eq_refl); discriminate Hst)).
  all: clear Hst.
  all: destruct Hidx as [-> | ->]; destruct w; cbn in Hq, Hst'; subst;
    cbn in Hstep; step_cases; unfold queue, notify_ready in *; cbn in *; subst;
    try (destruct c as [| |[] k| |]);
    (split;
     [ unfold well_formed, queue; cbn; repeat split; auto; try discriminate
     | unfold pending, queue; cbn; rewrite ?concat_app, ?app_nil_r; cbn;
       rewrite ?app_nil_r, <- ?app_assoc; try reflexivity ]).
  all: rewrite Hq, app_nil_r; reflexivity.
Qed.

(** Over a whole schedule. *)
Lemma exec_handover opt sched :
  forall s s',
  well_formed s ->
  exec opt sched s = Some s' ->
  well_formed s'
  /\ concat (returned_to_pool s') ++ pending s'
     = concat (returned_to_pool s) ++ pending s ++ enqueued sched.
Proof.
  induction sched as [|a sched IH]; intros s s' Hwf; cbn [exec].
  - intros [= <-]. split; [exact Hwf|]. cbn. now rewrite app_nil_r.
  - destruct (step opt a s) as [s1|] eqn:Hstep; [|discriminate].
    intros Hexec.
    destruct (step_handover opt a s s1 Hwf Hstep) as [Hwf1 H1].
    destruct (IH s1 s' Hwf1 Hexec) as [Hwf' H'].
    split; [exact Hwf'|]. rewrite H', app_assoc, H1.
    assert (Hcons : enqueued (a :: sched) = enqueued [a] ++ enqueued sched).
    { unfold enqueued. cbn [flat_map]. now rewrite app_nil_r. }
    rewrite Hcons. now rewrite <- !app_assoc.
Qed.

Lemma initial_well_formed : well_formed initial.
Proof. unfold well_formed. cbn. repeat split; auto; discriminate. Qed.

(** X11.  No deferred deallocation is lost, handed over twice or
    overtaken: at any moment of any interleaving of callers, worker and
    [stop], the batches the worker has passed to [bulk_deallocate], one
    after the other, followed by the records still waiting, are the records
    of the [deferred_deallocate] calls in the order of the calls. *)
Theorem deferred_deallocations_keep_their_order opt sched s :
  exec opt sched initial = Some s ->
  concat (returned_to_pool s) ++ pending s = enqueued sched.
Proof.
  intros Hexec.
  destruct (exec_handover opt sched initial s initial_well_formed Hexec) as [_ H].
  exact H.
Qed.

Lemma deferred_deallocations_keep_their_order_witness :
  exists s,
    exec Scenario.tight_options Scenario.schedule initial = Some s
    /\ concat (returned_to_pool s) ++ pending s
       = [Scenario.region 1; Scenario.region 2; Scenario.region 3;
          Scenario.region 4].
Proof.
  destruct (exec Scenario.tight_options Scenario.schedule initial) as [s|] eqn:H.
  - exists s. split; [reflexivity|].
    apply (deferred_deallocations_keep_their_order
             Scenario.tight_options Scenario.schedule s H).
  - vm_compute in H. discriminate H.
Defined.


(** *** The destructor *)

Lemma enqueued_app sched sched' :
  enqueued (sched ++ sched') = enqueued sched ++ enqueued sched'.
Proof. unfold enqueued. apply flat_map_app. Qed.

Lemma destructor_stop_handover s :
  well_formed s ->
  well_formed (destructor_stop s)
  /\ returned_to_pool (destructor_stop s) = returned_to_pool s
  /\ pending (destructor_stop s) = pending s.
Proof.
  intros Hwf. unfold destructor_stop. destruct (started_ s); [|auto].
  destruct (step_handover default_host_pool_opts ActStop s (stop s) Hwf eq_refl)
    as [Hwf' H].
  split; [exact Hwf'|].
  clear. destruct s as [d idx st sp mtx w c ret].
  unfold stop, notify_cv, pending. cbn. split; destruct w; reflexivity.
Qed.

(** X12.  When the destructor gets past [worker_.join()], every deferred
    deallocation has reached [bulk_deallocate] exactly once and in the order
    of the calls: the worker's batches first, then what the destructor
    itself passes on from the two queues.  This holds for every
    interleaving before the destructor and while it waits. *)
Theorem destructor_hands_over_the_rest opt sched sched' s s' s'' :
  exec opt sched initial = Some s ->
  exec opt sched' (destructor_stop s) = Some s' ->
  destructor_join s' = Some s'' ->
  concat (returned_to_pool s'') = enqueued (sched ++ sched').
Proof.
  intros Hbefore Hduring Hjoin.
  destruct (exec_handover opt sched initial s initial_well_formed Hbefore)
    as [Hwf H].
  destruct (destructor_stop_handover s Hwf) as (Hwf0 & Hret0 & Hpend0).
  destruct (exec_handover opt sched' _ s' Hwf0 Hduring) as [Hwf' H'].
  change (concat (returned_to_pool initial) ++ pending initial ++ enqueued sched)
    with (enqueued sched) in H.
  rewrite Hret0, Hpend0, app_assoc, H in H'.
  rewrite enqueued_app, <- H'.
  assert (Hrest : queue 0 s' ++ queue 1 s' = pending s'
                  /\ s'' = log_batch (queue 1 s') (log_batch (queue 0 s') s')).
  { destruct Hwf' as (_ & Hidx & Hst & Hq). unfold destructor_join in Hjoin.
    unfold pending.
    destruct (started_ s') eqn:Hs.
    - destruct (worker_ s'); try discriminate Hjoin.
      injection Hjoin as <-. split; [|reflexivity].
      destruct Hidx as [Hi|Hi]; rewrite Hi in *.
      * change (queue 1 s' = []) in Hq. now rewrite Hq, app_nil_r.
      * change (queue 0 s' = []) in Hq. now rewrite Hq.
    - injection Hjoin as <-. split; [|reflexivity].
      destruct Hst as [Hst _]. rewrite (Hst eq_refl) in *.
      destruct Hidx as [Hi|Hi]; rewrite Hi in *.
      * change (queue 1 s' = []) in Hq. now rewrite Hq, app_nil_r.
      * change (queue 0 s' = []) in Hq. now rewrite Hq. }
  destruct Hrest as [Hrest ->]. rewrite <- Hrest. cbn.
  rewrite !concat_app. cbn. now rewrite !app_nil_r, <- app_assoc.
Qed.

Lemma destructor_hands_over_the_rest_witness :
  exists s s' s'',
    exec default_device_pool_opts
         [ActEnqueue (Scenario.region 1); ActEnqueue (Scenario.region 2)]
         initial = Some s
    /\ exec default_device_pool_opts [ActWorker; ActWorker] (destructor_stop s)
       = Some s'
    /\ destructor_join s' = Some s''
    /\ concat (returned_to_pool s'') = [Scenario.region 1; Scenario.region 2].
Proof.
  eexists. eexists. eexists.
  split; [vm_compute; reflexivity|]. split; [vm_compute; reflexivity|].
  split; [vm_compute; reflexivity|].
  eapply (destructor_hands_over_the_rest
            default_device_pool_opts
            [ActEnqueue (Scenario.region 1); ActEnqueue (Scenario.region 2)]
            [ActWorker; ActWorker]); vm_compute; reflexivity.
Defined.

(** *** A worker that never leaves [run] *)

Lemma queue_after_push (d : list (list dealloc_params)) i par :
  default [] (d !! i) <> [] ->
  default [] (<[i := default [] (d !! i) ++ [par]]> d !! i) <> [].
Proof.
  destruct (d !! i) as [l|] eqn:E; cbn; [|congruence]. intros _.
  rewrite list_lookup_insert_eq by (eapply lookup_lt_Some; exact E).
  cbn. destruct l; discriminate.
Qed.

Lemma step_waits_stopped opt a s s' :
  waits_stopped s ->
  step opt a s = Some s' ->
  waits_stopped s' /\ returned_to_pool s' = returned_to_pool s.
Proof.
  intros Hw Hstep.
  assert (Hclient : (exists c, s' = set_client c s) ->
                    waits_stopped s' /\ returned_to_pool s' = returned_to_pool s).
  { intros [c ->]. split; [exact Hw | reflexivity]. }
  destruct a;
    try (apply Hclient; eapply client_step; [|exact Hstep]; exact I).
  all: clear Hclient; destruct Hw as (Hsp & Hst & Hpc & Hne); cbn in Hstep.
  - destruct (mtx_locked s); [discriminate|]. injection Hstep as <-.
    unfold enqueue. cbn. rewrite Hst. unfold notify_cv. cbn.
    assert (Hq : default [] (<[Z.to_nat (queue_idx_ s)
                               := queue (queue_idx_ s) s ++ [par]]> (deallocs_ s)
                             !! Z.to_nat (queue_idx_ s)) <> [])
      by (apply queue_after_push; exact Hne).
    destruct Hpc as [Hpc|[Hpc|Hpc]]; rewrite Hpc; cbn;
      (split; [|reflexivity]); unfold waits_stopped, queue in *; cbn;
      repeat split; auto.
  - injection Hstep as <-. unfold stop, notify_cv. cbn.
    destruct Hpc as [Hpc|[Hpc|Hpc]]; rewrite Hpc; cbn;
      (split; [|reflexivity]); unfold waits_stopped; cbn; repeat split; auto.
  - unfold run in Hstep.
    destruct Hpc as [Hpc|[Hpc|Hpc]]; rewrite Hpc in Hstep.
    + unfold wait_predicate in Hstep. rewrite Hsp in Hstep. cbn in Hstep.
      destruct (queue (queue_idx_ s) s) eqn:Hq; [contradiction|].
      cbn in Hstep. injection Hstep as <-.
      split; [|reflexivity]. unfold waits_stopped, queue in *. cbn.
      rewrite Hq. repeat split; auto; discriminate.
    + discriminate.
    + destruct (mtx_locked s); [discriminate|]. injection Hstep as <-.
      split; [|reflexivity]. unfold waits_stopped, queue in *. cbn. auto.
Qed.

(** X13.  A stopped pool whose worker is inside [cv_.wait] while the
    current queue holds a record never gets its worker out of [run]:
    whatever the callers and the worker do from then on, the worker stays
    in the wait, passes nothing more to [bulk_deallocate], and the
    destructor's [worker_.join()] does not return. *)
Theorem stopped_worker_with_work_never_exits opt sched s s' :
  waits_stopped s ->
  exec opt sched s = Some s' ->
  waits_stopped s'
  /\ worker_ s' <> WExited
  /\ returned_to_pool s' = returned_to_pool s
  /\ destructor_join s' = None.
Proof.
  intros Hw Hexec.
  assert (H : waits_stopped s' /\ returned_to_pool s' = returned_to_pool s).
  { revert s Hw Hexec. induction sched as [|a sched IH]; intros s Hw; cbn [exec].
    - intros [= <-]. auto.
    - destruct (step opt a s) as [s1|] eqn:Hstep; [|discriminate].
      intros Hexec.
      destruct (step_waits_stopped opt a s s1 Hw Hstep) as [Hw1 H1].
      destruct (IH s1 Hw1 Hexec) as [Hw' H']. split; [exact Hw'|].
      now rewrite H', H1. }
  destruct H as [Hw' Hret]. split; [exact Hw'|].
  destruct Hw' as (_ & Hst & Hpc & _).
  split; [destruct Hpc as [Hpc|[Hpc|Hpc]]; rewrite Hpc; discriminate|].
  split; [exact Hret|].
  unfold destructor_join. rewrite Hst.
  destruct Hpc as [Hpc|[Hpc|Hpc]]; rewrite Hpc; reflexivity.
Qed.

(** [stop] arrives between the loop test and the wait, with one record
    queued; the worker then blocks, is notified by a second
    [deferred_deallocate], and blocks again. *)
Lemma stopped_worker_with_work_never_exits_witness :
  exec default_device_pool_opts
       [ActEnqueue (Scenario.region 1); ActWorker; ActWorker; ActStop] initial
  = Some stop_before_wait
  /\ match exec default_device_pool_opts
                [ActWorker; ActEnqueue (Scenario.region 2); ActWorker; ActWorker]
                stop_before_wait with
     | Some s' => worker_ s' <> WExited /\ destructor_join s' = None
     | None => False
     end.
Proof.
  split; [vm_compute; reflexivity|].
  destruct (exec default_device_pool_opts
                 [ActWorker; ActEnqueue (Scenario.region 2); ActWorker; ActWorker]
                 stop_before_wait) as [s'|] eqn:H.
  - destruct (stopped_worker_with_work_never_exits
                default_device_pool_opts
                [ActWorker; ActEnqueue (Scenario.region 2); ActWorker; ActWorker]
                stop_before_wait s') as (_ & H1 & _ & H2).
    + unfold waits_stopped. cbn. repeat split; auto; discriminate.
    + exact H.
    + split; [exact H1 | exact H2].
  - vm_compute in H. discriminate H.
Defined.

End HandoverFacts.

(** ** The Numpy reader: the axis permutations *)

Module NumpyFacts.
Import NumpyReaderCPU.
Local Open Scope Z_scope.

Lemma reverse_axes_prefix n (init : list Z) (k : nat) :
  (k <= length init)%nat ->
  fold_left (fun perm i => <[i := n - Z.of_nat i - 1]> perm) (seq 0 k) init
  = map (fun i => n - Z.of_nat i - 1) (seq 0 k) ++ drop k init.
Proof.
  induction k as [|k IH]; intros Hk.
  - simpl. now rewrite drop_0.
  - rewrite seq_S, fold_left_app, IH by lia. cbn [fold_left Nat.add].
    rewrite map_app. cbn [map]. rewrite <- app_assoc. cbn [app].
    destruct (lookup_lt_is_Some_2 init k ltac:(lia)) as [x Hx].
    rewrite (drop_S init x k Hx).
    rewrite insert_app_r_alt by (rewrite length_map, length_seq; lia).
    rewrite length_map, length_seq, Nat.sub_diag. reflexivity.
Qed.

Lemma reverse_axes_eq n (init : list Z) :
  length init = Z.to_nat n ->
  reverse_axes n init = map (fun i => n - Z.of_nat i - 1) (seq 0 (Z.to_nat n)).
Proof.
  intros Hlen. unfold reverse_axes.
  rewrite reverse_axes_prefix by lia.
  rewrite <- Hlen, drop_all. apply app_nil_r.
Qed.

Lemma reverse_axes_lookup n (init : list Z) i :
  length init = Z.to_nat n -> 0 <= i < n ->
  reverse_axes n init !! Z.to_nat i = Some (n - 1 - i).
Proof.
  intros Hlen Hi. rewrite reverse_axes_eq by exact Hlen.
  rewrite list_lookup_fmap, lookup_seq_lt by lia. cbn. f_equal. lia.
Qed.

Lemma reverse_axes_reverse n (init : list Z) :
  length init = Z.to_nat n ->
  reverse_axes n init = reverse (map Z.of_nat (seq 0 (Z.to_nat n))).
Proof.
  intros Hlen. rewrite reverse_axes_eq by exact Hlen.
  apply list_eq. intros i.
  destruct (Nat.lt_ge_cases i (Z.to_nat n)) as [Hi|Hi].
  - rewrite reverse_lookup by (rewrite length_map, length_seq; exact Hi).
    rewrite length_map, length_seq, !list_lookup_fmap, !lookup_seq_lt by lia.
    cbn. f_equal. lia.
  - rewrite !lookup_ge_None_2; [reflexivity | |].
    + rewrite length_reverse, length_map, length_seq. exact Hi.
    + rewrite length_map, length_seq. exact Hi.
Qed.

(** X14.  The permutation [TransposeHelper] hands to the transposition
    kernel for an array of [n_dims] axes is the reversal of the axes: entry
    [i] is [n_dims - 1 - i].  It is a permutation of [0 .. n_dims - 1] and
    its own inverse.  [SlicePermuteHelper] sets [permuted_dims] to the same
    list for 1 to 6 axes, whatever the array held before, and fails for any
    other number of axes. *)
Theorem fortran_order_reverses_the_axes n_dims :
  0 <= n_dims ->
  length (TransposeHelper_perm n_dims) = Z.to_nat n_dims
  /\ (forall i, 0 <= i < n_dims ->
        TransposeHelper_perm n_dims !! Z.to_nat i = Some (n_dims - 1 - i)
        /\ TransposeHelper_perm n_dims !! Z.to_nat (n_dims - 1 - i) = Some i)
  /\ Permutation (TransposeHelper_perm n_dims)
                 (map Z.of_nat (seq 0 (Z.to_nat n_dims)))
  /\ (forall permuted_dims,
        length permuted_dims = Z.to_nat n_dims ->
        SlicePermuteHelper_permuted_dims n_dims permuted_dims
        = if (1 <=? n_dims) && (n_dims <=? 6)
          then Some (TransposeHelper_perm n_dims) else None).
Proof.
  intros Hn.
  assert (Hinit : length (replicate (Z.to_nat n_dims) 0) = Z.to_nat n_dims)
    by apply length_replicate.
  split.
  { unfold TransposeHelper_perm. rewrite reverse_axes_eq by exact Hinit.
    now rewrite length_map, length_seq. }
  split.
  { intros i Hi. unfold TransposeHelper_perm. split.
    - now apply reverse_axes_lookup.
    - rewrite reverse_axes_lookup by (exact Hinit || lia). f_equal. lia. }
  split.
  { unfold TransposeHelper_perm. rewrite reverse_axes_reverse by exact Hinit.
    apply reverse_Permutation. }
  intros permuted_dims Hlen. unfold SlicePermuteHelper_permuted_dims.
  destruct ((1 <=? n_dims) && (n_dims <=? 6)); [|reflexivity].
  unfold TransposeHelper_perm.
  now rewrite (reverse_axes_eq _ permuted_dims), (reverse_axes_eq _ (replicate _ _)).
Qed.

Lemma fortran_order_reverses_the_axes_witness :
  TransposeHelper_perm 3 !! 0%nat = Some 2
  /\ SlicePermuteHelper_permuted_dims 3 [7; 7; 7] = Some (TransposeHelper_perm 3).
Proof.
  destruct (fortran_order_reverses_the_axes 3) as (_ & Hperm & _ & Hslice).
  - apply Z.leb_le. reflexivity.
  - split.
    + apply (proj1 (Hperm 0 ltac:(lia))).
    + apply (Hslice [7; 7; 7]). reflexivity.
Defined.

End NumpyFacts.

(** ** Filling a tensor list with a constant *)

Module ConstantFacts.
Import constant.
Local Open Scope Z_scope.

Section Facts.
Context {byte Src Dst : Type}.
Variable ConvertSat : Src -> Dst.
Variable div_ceil : Z -> Z -> Z.
Variable sizeof_Dst : Z.
Variable representation : Dst -> list byte.
Variable mutable_tensor : Z -> Z.

(** *** Copies of a sample, one after the other *)

Lemma length_copies (c : nat) (l : list byte) :
  length (concat (replicate c l)) = (c * length l)%nat.
Proof.
  induction c as [|c IH]; [reflexivity|].
  cbn [replicate concat]. rewrite length_app, IH. lia.
Qed.

Lemma copies_snoc (c : nat) (l : list byte) :
  concat (replicate (S c) l) = concat (replicate c l) ++ l.
Proof.
  replace (S c) with (c + 1)%nat by lia.
  rewrite replicate_add, concat_app. cbn. now rewrite app_nil_r.
Qed.

Lemma copies_add (c t : nat) (l : list byte) :
  concat (replicate (c + t) l) = concat (replicate c l) ++ concat (replicate t l).
Proof. now rewrite replicate_add, concat_app. Qed.

Lemma take_copies (t c : nat) (l rest : list byte) :
  (t <= c)%nat ->
  take (t * length l) (concat (replicate c l) ++ rest) = concat (replicate t l).
Proof.
  intros Htc. replace c with (t + (c - t))%nat by lia.
  rewrite copies_add, <- app_assoc.
  apply take_app_length'. now rewrite length_copies.
Qed.

Lemma drop_copies (c x : nat) (l rest : list byte) :
  drop (c * length l + x) (concat (replicate c l) ++ rest) = drop x rest.
Proof.
  rewrite <- (length_copies c l). apply drop_app_add.
Qed.

(** *** The kernel *)

Lemma fill_threads (value mem0 : list byte) (size : nat) :
  length mem0 = (size * length value)%nat ->
  forall k : nat,
  fold_left (fun m i => match m with
                        | Some m => Fill (Z.of_nat size) value (Z.of_nat i) m
                        | None => None
                        end) (seq 0 k) (Some mem0)
  = Some (concat (replicate (Nat.min k size) value)
          ++ drop (Nat.min k size * length value) mem0).
Proof.
  intros Hlen. induction k as [|k IH].
  - simpl. now rewrite drop_0.
  - rewrite seq_S, fold_left_app, IH. cbn [fold_left Nat.add]. unfold Fill.
    destruct (Z.ltb_spec (Z.of_nat k) (Z.of_nat size)) as [Hk|Hk].
    + replace (Nat.min k size) with k by lia.
      replace (Nat.min (S k) size) with (S k) by lia.
      assert (Hin : in_bounds (Z.of_nat k * Z.of_nat (length value))
                              (Z.of_nat (length value))
                              (concat (replicate k value)
                               ++ drop (k * length value) mem0) = true).
      { unfold in_bounds.
        rewrite length_app, length_copies, length_drop, Hlen.
        assert ((S k) * length value <= size * length value)%nat
          by (apply Nat.mul_le_mono_r; lia).
        apply andb_true_iff. split; [apply andb_true_iff; split|];
          apply Z.leb_le; nia. }
      rewrite Hin. f_equal. unfold store.
      replace (Z.to_nat (Z.of_nat k * Z.of_nat (length value)))
        with (k * length value)%nat by lia.
      rewrite (take_copies k k) by lia.
      rewrite drop_copies, drop_drop, copies_snoc, <- app_assoc.
      do 3 f_equal. lia.
    + replace (Nat.min k size) with size by lia.
      replace (Nat.min (S k) size) with size by lia. reflexivity.
Qed.

(** X15.  With a single source value, [FillTensorList] leaves every
    element of the list equal to the converted value and writes nothing
    outside the buffer, although the grid is rounded up to whole blocks of
    1024 threads: the threads past the last element do nothing.  What is
    asked of [div_ceil] is that the grid it gives covers the elements and
    can be launched. *)
Theorem single_value_fills_every_element num_samples size value mem :
  num_samples <> 0 ->
  0 <= size ->
  Z.of_nat (length mem)
  = size * Z.of_nat (length (representation (ConvertSat value))) ->
  size <= div_ceil size 1024 * 1024 ->
  0 <= div_ceil size 1024 <= 2 ^ 31 - 1 ->
  FillTensorList ConvertSat div_ceil sizeof_Dst representation mutable_tensor
                 num_samples size [value] mem
  = Returns (concat (replicate (Z.to_nat size)
                               (representation (ConvertSat value))), []).
Proof.
  intros Hsamples Hsize Hlen Hcover Hgrid. unfold FillTensorList.
  destruct (Z.eqb_spec num_samples 0) as [|_]; [contradiction|].
  cbv zeta. unfold launch_Fill.
  set (v := representation (ConvertSat value)) in *.
  assert (Hs : size = Z.of_nat (Z.to_nat size)) by lia.
  set (sz := Z.to_nat size) in *. clearbody sz. subst size.
  assert (Hb : to_unsigned (div_ceil (Z.of_nat sz) 1024)
               = div_ceil (Z.of_nat sz) 1024).
  { unfold to_unsigned. apply Z.mod_small.
    assert (2 ^ 31 - 1 < 2 ^ 32) by reflexivity. lia. }
  rewrite Hb. change (to_unsigned 1024) with 1024.
  rewrite (Z.mod_small (Z.of_nat sz) (2 ^ 64))
    by (change (2 ^ 64) with (2 ^ 33 * 2 ^ 31); lia).
  assert (Hmem : length mem = (sz * length v)%nat) by lia.
  destruct (Z.leb_spec 1 (div_ceil (Z.of_nat sz) 1024)) as [Hpos|Hzero].
  - assert (Hle : (div_ceil (Z.of_nat sz) 1024 <=? 2 ^ 31 - 1) = true)
      by (apply Z.leb_le; lia).
    rewrite Hle. cbn [andb].
    rewrite (fill_threads v mem sz Hmem).
    replace (Nat.min (Z.to_nat (div_ceil (Z.of_nat sz) 1024 * 1024)) sz)
      with sz by lia.
    rewrite drop_ge by lia. now rewrite app_nil_r.
  - cbn [andb]. assert (sz = 0%nat) by lia. subst sz.
    destruct mem; [reflexivity | simpl in Hmem; lia].
Qed.

(** *** The doubling loop *)

Lemma copy_next (tmp rest : list byte) (c t N : nat) :
  (t <= c)%nat -> (c + t <= N)%nat ->
  length (concat (replicate c tmp) ++ rest) = (N * length tmp)%nat ->
  memcpy_device_to_device (Z.of_nat c * Z.of_nat (length tmp)) 0
                          (Z.of_nat (length tmp) * Z.of_nat t)
                          (concat (replicate c tmp) ++ rest)
  = Some (concat (replicate (c + t) tmp) ++ drop (t * length tmp) rest).
Proof.
  intros Htc HcN Hlen. unfold memcpy_device_to_device, in_bounds.
  rewrite Hlen.
  assert ((c + t) * length tmp <= N * length tmp)%nat
    by (apply Nat.mul_le_mono_r; lia).
  assert (t * length tmp <= c * length tmp)%nat
    by (apply Nat.mul_le_mono_r; lia).
  replace ((0 <=? Z.of_nat c * Z.of_nat (length tmp))
           && (0 <=? Z.of_nat (length tmp) * Z.of_nat t)
           && (Z.of_nat c * Z.of_nat (length tmp)
               + Z.of_nat (length tmp) * Z.of_nat t
               <=? Z.of_nat (N * length tmp))) with true
    by (symmetry; repeat (apply andb_true_iff; split); apply Z.leb_le; nia).
  replace ((0 <=? 0) && (0 <=? Z.of_nat (length tmp) * Z.of_nat t)
           && (0 + Z.of_nat (length tmp) * Z.of_nat t
               <=? Z.of_nat (N * length tmp))) with true
    by (symmetry; repeat (apply andb_true_iff; split); apply Z.leb_le; nia).
  replace (0 + Z.of_nat (length tmp) * Z.of_nat t
           <=? Z.of_nat c * Z.of_nat (length tmp)) with true
    by (symmetry; apply Z.leb_le; nia).
  cbn [andb orb]. f_equal. unfold store.
  replace (Z.to_nat (Z.of_nat c * Z.of_nat (length tmp)))
    with (c * length tmp)%nat by lia.
  replace (Z.to_nat (Z.of_nat (length tmp) * Z.of_nat t))
    with (t * length tmp)%nat by lia.
  change (Z.to_nat 0) with 0%nat. rewrite drop_0.
  rewrite (take_copies c c) by lia. rewrite (take_copies t c) by exact Htc.
  rewrite length_copies, drop_copies, copies_add, <- app_assoc. reflexivity.
Qed.

Lemma doubling_rounds (tmp : list byte) (N : nat) :
  (forall i, 0 <= i < Z.of_nat N ->
             mutable_tensor i = i * Z.of_nat (length tmp)) ->
  Z.of_nat (length tmp) * Z.of_nat N <= int_max ->
  Z.of_nat N <= 2 ^ 30 ->
  forall (k c fuel : nat) rest issued,
  (1 <= c <= N)%nat ->
  length (concat (replicate c tmp) ++ rest) = (N * length tmp)%nat ->
  (N <= c * 2 ^ k)%nat ->
  (k = 0%nat \/ (c * 2 ^ (k - 1) < N)%nat) ->
  (N - c <= fuel)%nat ->
  exists new,
    doubling mutable_tensor fuel (Z.of_nat (length tmp)) (Z.of_nat N) (Z.of_nat c)
             (concat (replicate c tmp) ++ rest) issued
    = Returns (concat (replicate N tmp), issued ++ new)
    /\ length new = k
    /\ Forall (fun t => from t = 0
                        /\ from t + count t <= to t
                        /\ to t + count t
                           <= Z.of_nat (length tmp) * Z.of_nat N) new.
Proof.
  intros Hlayout Hbytes Hsamples.
  induction k as [|k IH]; intros c fuel rest issued Hc Hlen Hreach Hmin Hfuel.
  - assert (c = N) by (simpl in Hreach; lia). subst c.
    exists []. rewrite app_nil_r.
    assert (Hrest : rest = []).
    { rewrite length_app, length_copies in Hlen.
      destruct rest; [reflexivity | simpl in Hlen; lia]. }
    subst rest. rewrite app_nil_r.
    split; [|split; [reflexivity | constructor]].
    destruct fuel; cbn [doubling]; now rewrite Z.ltb_irrefl.
  - destruct Hmin as [Hk|Hmin]; [discriminate Hk|].
    replace (S k - 1)%nat with k in Hmin by lia.
    assert (Hp : (1 <= 2 ^ k)%nat)
      by (apply Nat.neq_0_lt_0, Nat.pow_nonzero; discriminate).
    assert (HcN : (c < N)%nat) by nia.
    destruct fuel as [|fuel]; [lia|]. cbn [doubling].
    replace (Z.of_nat c <? Z.of_nat N) with true by (symmetry; apply Z.ltb_lt; lia).
    assert (Hmax : int_max = 2 ^ 31 - 1) by reflexivity.
    assert (H30 : 2 ^ 31 = 2 * 2 ^ 30) by reflexivity.
    replace (int_max <? Z.of_nat c + Z.of_nat c) with false
      by (symmetry; apply Z.ltb_ge; lia).
    set (t := Nat.min c (N - c)).
    assert (Ht : (if Z.of_nat N <? Z.of_nat c + Z.of_nat c
                  then Z.of_nat N - Z.of_nat c else Z.of_nat c) = Z.of_nat t).
    { unfold t. destruct (Z.ltb_spec (Z.of_nat N) (Z.of_nat c + Z.of_nat c)); lia. }
    rewrite Ht.
    assert (Htc : (t <= c)%nat) by (unfold t; lia).
    assert (HtN : (c + t <= N)%nat) by (unfold t; lia).
    assert (Hcount : 0 <= Z.of_nat (length tmp) * Z.of_nat t
                     <= Z.of_nat (length tmp) * Z.of_nat N) by nia.
    replace ((int_max <? Z.of_nat (length tmp) * Z.of_nat t)
             || (Z.of_nat (length tmp) * Z.of_nat t <? - int_max - 1)) with false
      by (symmetry; apply orb_false_iff; split; apply Z.ltb_ge; lia).
    rewrite (Hlayout (Z.of_nat c)) by lia. rewrite (Hlayout 0) by lia.
    change (0 * Z.of_nat (length tmp)) with 0.
    rewrite (copy_next tmp rest c t N Htc HtN Hlen).
    assert (Hlen' : length (concat (replicate (c + t) tmp)
                            ++ drop (t * length tmp) rest)
                    = (N * length tmp)%nat).
    { rewrite length_app, length_copies, length_drop.
      rewrite length_app, length_copies in Hlen.
      assert ((c + t) * length tmp <= N * length tmp)%nat
        by (apply Nat.mul_le_mono_r; lia).
      lia. }
    assert (Hreach' : (N <= (c + t) * 2 ^ k)%nat).
    { unfold t. cbn [Nat.pow] in Hreach.
      destruct (Nat.le_gt_cases c (N - c)); [|nia].
      replace (Nat.min c (N - c)) with c by lia. lia. }
    assert (Hmin' : k = 0%nat \/ ((c + t) * 2 ^ (k - 1) < N)%nat).
    { destruct k as [|k']; [now left|]. right.
      replace (S k' - 1)%nat with k' by lia. cbn [Nat.pow] in Hmin.
      assert (1 <= 2 ^ k')%nat
        by (apply Nat.neq_0_lt_0, Nat.pow_nonzero; discriminate).
      unfold t. destruct (Nat.le_gt_cases c (N - c)); [|nia].
      replace (Nat.min c (N - c)) with c by lia. lia. }
    assert (Hpos : (1 <= t)%nat) by (unfold t; lia).
    destruct (IH (c + t)%nat fuel (drop (t * length tmp) rest)
                 (issued ++ [{| to := Z.of_nat c * Z.of_nat (length tmp);
                                from := 0;
                                count := Z.of_nat (length tmp) * Z.of_nat t |}])
                 ltac:(lia) Hlen' Hreach' Hmin' ltac:(lia))
      as (new & Hrun & Hnew & Hall).
    exists ({| to := Z.of_nat c * Z.of_nat (length tmp); from := 0;
               count := Z.of_nat (length tmp) * Z.of_nat t |} :: new).
    split.
    { replace (Z.of_nat c + Z.of_nat t) with (Z.of_nat (c + t)) by lia.
      rewrite Hrun, <- app_assoc. reflexivity. }
    split; [simpl; now rewrite Hnew|].
    constructor; [|exact Hall]. cbn. repeat split; nia.
Qed.

Lemma length_representation (l : list Dst) :
  (forall x, Z.of_nat (length (representation x)) = sizeof_Dst) ->
  Z.of_nat (length (concat (map representation l)))
  = Z.of_nat (length l) * sizeof_Dst.
Proof.
  intros Hsize. induction l as [|x l IH]; [reflexivity|].
  cbn [map concat length]. rewrite length_app. specialize (Hsize x). lia.
Qed.

Lemma log2_up_rounds (N : nat) :
  (1 <= N)%nat ->
  let k := Z.to_nat (Z.log2_up (Z.of_nat N)) in
  (N <= 1 * 2 ^ k)%nat /\ (k = 0%nat \/ (1 * 2 ^ (k - 1) < N)%nat).
Proof.
  intros HN k.
  pose proof (Z.log2_up_nonneg (Z.of_nat N)) as Hnn.
  assert (Hpow : forall j : nat, Z.of_nat (2 ^ j) = 2 ^ Z.of_nat j).
  { intros j. now rewrite Nat2Z.inj_pow. }
  destruct (Nat.eq_dec N 1%nat) as [->|Hne].
  - split; [simpl; lia | now left].
  - destruct (Z.log2_up_spec (Z.of_nat N) ltac:(lia)) as [Hlow Hhigh].
    assert (Hk : Z.of_nat k = Z.log2_up (Z.of_nat N)) by (unfold k; lia).
    split.
    + apply Nat2Z.inj_le. rewrite Nat.mul_1_l, Hpow, Hk. exact Hhigh.
    + right. apply Nat2Z.inj_lt. rewrite Nat.mul_1_l, Hpow.
      replace (Z.of_nat (k - 1)) with (Z.pred (Z.log2_up (Z.of_nat N))); [exact Hlow|].
      assert (0 < Z.log2_up (Z.of_nat N)) by (apply Z.log2_up_pos; lia). lia.
Qed.

(** X16.  With several source values and a list of [N] samples laid out
    one after the other, [FillTensorList] leaves every sample equal to the
    converted values.  It gets there with one copy from the host and
    [ceil(log2 N)] copies on the device; each of these reads from the start
    of the buffer a range that ends before the range it writes, and writes
    inside the buffer.  [N] is at most [2 ^ 30] and the list has at most
    [INT_MAX] bytes, so that the [int] arithmetic of the loop does not
    overflow. *)
Theorem doubling_fills_every_sample N num_elements src mem :
  length src <> 1%nat ->
  1 <= N <= 2 ^ 30 ->
  (forall x, Z.of_nat (length (representation x)) = sizeof_Dst) ->
  Z.of_nat (length src) * sizeof_Dst * N <= int_max ->
  Z.of_nat (length mem) = Z.of_nat (length src) * sizeof_Dst * N ->
  (forall i, 0 <= i < N ->
             mutable_tensor i = i * (Z.of_nat (length src) * sizeof_Dst)) ->
  exists issued,
    FillTensorList ConvertSat div_ceil sizeof_Dst representation mutable_tensor
                   N num_elements src mem
    = Returns (concat (replicate (Z.to_nat N)
                         (concat (map representation (map ConvertSat src)))),
               issued)
    /\ Z.of_nat (length issued) = Z.log2_up N
    /\ Forall (fun t => from t = 0
                        /\ from t + count t <= to t
                        /\ to t + count t <= Z.of_nat (length mem)) issued.
Proof.
  intros Hsrc HN Hsize Hbytes Hmem Hlayout.
  set (tmp := concat (map representation (map ConvertSat src))).
  assert (Hn : Z.of_nat (length tmp) = Z.of_nat (length src) * sizeof_Dst).
  { unfold tmp. rewrite length_representation by exact Hsize.
    now rewrite length_map. }
  rewrite <- Hn in *. clear Hsize.
  assert (HNn : N = Z.of_nat (Z.to_nat N)) by lia.
  set (Nn := Z.to_nat N) in *. clearbody Nn. subst N.
  assert (Hfirst : FillTensorList ConvertSat div_ceil sizeof_Dst representation
                     mutable_tensor (Z.of_nat Nn) num_elements src mem
                   = doubling mutable_tensor Nn (Z.of_nat (length tmp))
                              (Z.of_nat Nn) 1
                              (concat (replicate 1 tmp)
                               ++ drop (length tmp) mem) []).
  { unfold FillTensorList.
    destruct (Z.eqb_spec (Z.of_nat Nn) 0) as [|_]; [lia|].
    assert (Hint : to_int ((Z.of_nat (length (map ConvertSat src)) * sizeof_Dst)
                           mod 2 ^ 64) = Z.of_nat (length tmp)).
    { rewrite length_map, <- Hn. unfold to_int.
      assert (Hmax : int_max = 2 ^ 31 - 1) by reflexivity.
      assert (Z.of_nat (length tmp) <= int_max) by nia.
      rewrite (Z.mod_small _ (2 ^ 64)) by (change (2 ^ 64) with (2 ^ 33 * 2 ^ 31); lia).
      rewrite Z.mod_small by (change (2 ^ 32) with (2 * 2 ^ 31); lia). lia. }
    assert (Hcopy : memcpy_host_to_device (mutable_tensor 0) tmp
                                          (Z.of_nat (length tmp)) mem
                    = Some (concat (replicate 1 tmp) ++ drop (length tmp) mem)).
    { rewrite Hlayout by lia. unfold memcpy_host_to_device, in_bounds.
      change (0 * Z.of_nat (length tmp)) with 0.
      replace ((0 <=? 0) && (0 <=? Z.of_nat (length tmp))
               && (0 + Z.of_nat (length tmp) <=? Z.of_nat (length mem))
               && (Z.of_nat (length tmp) <=? Z.of_nat (length tmp))) with true
        by (symmetry; repeat (apply andb_true_iff; split); apply Z.leb_le; nia).
      f_equal. unfold store. rewrite Nat2Z.id, firstn_all.
      cbn. now rewrite app_nil_r. }
    destruct src as [|x [|y src']]; [| contradiction Hsrc; reflexivity |];
      cbv zeta; rewrite Hint; fold tmp; rewrite Hcopy; rewrite Nat2Z.id;
      reflexivity. }
  destruct (log2_up_rounds Nn ltac:(lia)) as [Hreach Hmin]. cbv zeta in *.
  destruct (doubling_rounds tmp Nn Hlayout ltac:(lia) ltac:(lia)
              (Z.to_nat (Z.log2_up (Z.of_nat Nn))) 1%nat Nn
              (drop (length tmp) mem) []) as (new & Hrun & Hnew & Hall).
  - lia.
  - rewrite length_app, length_copies, length_drop. nia.
  - exact Hreach.
  - exact Hmin.
  - lia.
  - exists new. rewrite Hfirst. change (Z.of_nat 1) with 1 in Hrun.
    rewrite Hrun. split; [reflexivity|].
    split; [rewrite Hnew; pose proof (Z.log2_up_nonneg (Z.of_nat Nn)); lia|].
    rewrite Hmem. exact Hall.
Qed.

End Facts.

(** Three [int16_t] elements set to 7 by a grid of 1024 threads. *)
Lemma single_value_fills_every_element_witness :
  FillTensorList saturate_int16 round_up_div 2 int16_bytes (contiguous 2)
                 3 3 [7] (replicate 6 0)
  = Returns ([7; 0; 7; 0; 7; 0], []).
Proof.
  apply (single_value_fills_every_element
           saturate_int16 round_up_div 2 int16_bytes (contiguous 2)
           3 3 7 (replicate 6 0)).
  - discriminate.
  - apply Z.leb_le. reflexivity.
  - reflexivity.
  - apply Z.leb_le. reflexivity.
  - split; apply Z.leb_le; reflexivity.
Defined.

(** Five samples of three [int16_t] elements: three copies on the device. *)
Lemma doubling_fills_every_sample_witness :
  exists issued,
    FillTensorList saturate_int16 round_up_div 2 int16_bytes (contiguous 6)
                   5 15 [1; 2; 40000] (replicate 30 0)
    = Returns (concat (replicate 5 [1; 0; 2; 0; 255; 127]), issued)
    /\ Z.of_nat (length issued) = 3.
Proof.
  destruct (doubling_fills_every_sample
              saturate_int16 round_up_div 2 int16_bytes (contiguous 6)
              5 15 [1; 2; 40000] (replicate 30 0))
    as (issued & Hrun & Hcount & _).
  - discriminate.
  - split; apply Z.leb_le; reflexivity.
  - intros x. reflexivity.
  - apply Z.leb_le. reflexivity.
  - reflexivity.
  - intros i _. reflexivity.
  - exists issued. split; [exact Hrun | exact Hcount].
Defined.

End ConstantFacts.
